(** * Animation scene of LumixEngine: a shallow embedding

    Source: [src/animation/animation_system.cpp], class [AnimationSceneImpl].

    The scene owns an array of [Animable] slots.  Every member function of
    the class that the properties below talk about is translated here as a
    function on the array (and on the trace of calls made to the universe and
    to the renderer), keeping the names of the source. *)

From Stdlib Require Import ZArith QArith Qround Lqa Lia List String Ascii Strings.Byte SpecFloat Bool.
From stdpp Require Import base decidable option list strings.
Import ListNotations.

#[local] Open Scope Z_scope.
#[local] Open Scope list_scope.

(** ** Handles of the universe *)

(** A C++ pointer, compared by address; [None] is the null pointer. *)
Definition pointer := option positive.

Module Entity.
(** Modelled from the spec: [struct Entity] is declared in
    universe/entity.h, which is not part of the sources.  The scene reads
    and writes its two fields [index] and [universe] and compares entities
    with [==], here equality of both fields. *)
Record t := mk { index : Z; universe : pointer }.

(** Modelled from the spec: the entity of the invalid handle. *)
Definition INVALID : t := mk (-1) None.

#[global] Instance eq_dec : EqDecision t.
Proof. solve_decision. Defined.
End Entity.

Module Component.
(** Modelled from the spec: [struct Component] is declared in
    universe/component.h, which is not part of the sources.  A handle is
    [{entity, componentKind, scene, index}]. *)
Record t := mk { entity : Entity.t; type : Z; scene : pointer; index : Z }.

(** Modelled from the spec: the invalid handle, [Component::INVALID].  It
    belongs to no entity and to no scene, and its index is negative. *)
Definition INVALID : t := mk Entity.INVALID 0 None (-1).

(** Modelled from the spec: [Component::isValid], false on the invalid
    handle and true on the handles of slots. *)
Definition isValid (c : t) : bool := 0 <=? index c.

#[global] Instance eq_dec : EqDecision t.
Proof. solve_decision. Defined.
End Component.

(** ** Arithmetic of [float]

    The scene only adds, subtracts and compares playback times.  The
    operations are an interface: what is proved of the translation for every
    arithmetic holds of the [float] of the compiler, the instance
    [Binary32] below, whatever its rounding does. *)
Class FloatArith (float : Type) := {
  f_zero : float;
  f_add : float -> float -> float;
  f_sub : float -> float -> float;
  (** [f_gt a b] is the C++ test [a > b] *)
  f_gt : float -> float -> bool
}.

(** The four bytes a [float] occupies in memory, as an unsigned number. *)
Class FloatBits (float : Type) := {
  f_to_bits : float -> Z;
  f_of_bits : Z -> float
}.

(** ** Errors

    What the C++ leaves undefined is an explicit error of the model. *)
Inductive error :=
  | NullPointer      (* a member function is called through a null pointer *)
  | OutOfRange       (* [m_animables[i]] with [i] outside the array *)
  | OutOfFuel        (* a loop did not finish within the fuel given *)
  | BadBlob.         (* the blob ends early or holds an impossible size *)

Inductive result (A : Type) :=
  | Ok (a : A)
  | Err (e : error).
Arguments Ok {A} a.
Arguments Err {A} e.

Definition bind {A B} (r : result A) (k : A -> result B) : result B :=
  match r with
  | Ok a => k a
  | Err e => Err e
  end.

#[global] Instance result_bind : MBind result := fun A B k r => bind r k.
#[global] Instance result_ret : MRet result := fun A a => Ok a.

(** ** Binary blobs *)

Definition blob := list byte.

Definition byte_of_Z (z : Z) : byte :=
  match Byte.of_N (Z.to_N (z mod 256)) with
  | Some b => b
  | None => x00
  end.

Definition Z_of_byte (b : byte) : Z := Z.of_N (Byte.to_N b).

(** Modelled from the spec: [OutputBlob::write] and [InputBlob::read]
    (core/blob.h is not part of the sources) copy the bytes of a value,
    least significant byte first: one byte for a [bool], four for an
    [int32_t] and for a [float]. *)
Definition write_uint32 (z : Z) : blob :=
  [byte_of_Z z; byte_of_Z (z / 256); byte_of_Z (z / 65536); byte_of_Z (z / 16777216)].

Definition write_int32 (z : Z) : blob := write_uint32 (z mod 2 ^ 32).

Definition write_bool (b : bool) : blob := [if b then x01 else x00].

Definition write_float {float} `{FloatBits float} (f : float) : blob :=
  write_uint32 (f_to_bits f).

(** Modelled from the spec: [InputBlob::read] of four bytes; a blob that
    ends before them is an error. *)
Definition read_uint32 (b : blob) : result (Z * blob) :=
  match b with
  | b0 :: b1 :: b2 :: b3 :: rest =>
      Ok (Z_of_byte b0 + 256 * Z_of_byte b1 + 65536 * Z_of_byte b2
          + 16777216 * Z_of_byte b3, rest)
  | _ => Err BadBlob
  end.

Definition read_int32 (b : blob) : result (Z * blob) :=
  '(u, rest) ← read_uint32 b;
  Ok (if u <? 2 ^ 31 then u else u - 2 ^ 32, rest).

Definition read_bool (b : blob) : result (bool * blob) :=
  match b with
  | b0 :: rest => Ok (negb (Z_of_byte b0 =? 0), rest)
  | [] => Err BadBlob
  end.

Definition read_float {float} `{FloatBits float} (b : blob) : result (float * blob) :=
  '(u, rest) ← read_uint32 b;
  Ok (f_of_bits u, rest).

(** The characters of a C string: everything before the first NUL. *)
Fixpoint c_str (bs : list byte) : list byte :=
  match bs with
  | [] => []
  | b :: rest => if Byte.eqb b x00 then [] else b :: c_str rest
  end.

(** Modelled from the spec: [OutputBlob::writeString] stores the string
    length-prefixed and null-terminated: a signed 32-bit size that counts
    the terminating NUL, then the characters, then the NUL. *)
Definition writeString (s : string) : blob :=
  let chars := c_str (list_byte_of_string s) in
  write_int32 (Z.of_nat (length chars) + 1) ++ chars ++ [x00].

(** Modelled from the spec: [InputBlob::readString (data, max_size)] reads
    the size, refuses a size that does not fit the buffer, and copies that
    many bytes; the caller then uses the buffer as a C string. *)
Definition readString (max_size : Z) (b : blob) : result (string * blob) :=
  '(size, rest) ← read_int32 b;
  if (size <=? 0) || (max_size <? size) then Err BadBlob
  else
    let n := Z.to_nat size in
    if (length rest <? n)%nat then Err BadBlob
    else Ok (string_of_list_byte (c_str (take n rest)), drop n rest).

(** ** The data of the scene *)

Module Animation.
(** Modelled from the spec: [class Animation] (animation/animation.h, not
    part of the sources) is a resource with a path, a length in seconds, a
    frame count and a readiness flag. *)
Record t {float : Type} := mk {
  getPath : string;
  getLength : float;
  getFrameCount : Z;
  isReady : bool
}.
Arguments t : clear implicits.
Arguments mk {float}.
End Animation.

Section Data.
Context {float : Type}.


(** [struct Animable]; [m_animation] is a pointer, [None] when null. *)
Record Animable := {
  m_manual : bool;
  m_is_free : bool;
  m_renderable : Component.t;
  m_time : float;
  m_animation : option (Animation.t float);
  m_entity : Entity.t
}.

(** What the scene asks of its collaborators, in the order of the calls. *)
Inductive Event :=
  | AddComponent (cmp : Component.t)        (* m_universe.addComponent *)
  | ComponentCreated (cmp : Component.t)    (* m_universe.componentCreated().invoke *)
  | DestroyComponent (cmp : Component.t)    (* m_universe.destroyComponent *)
  | GetPose (anim : Animation.t float) (time : float) (renderable : Component.t).
                                            (* Animation::getPose into the pose of the renderable *)

Record Scene := {
  m_animables : list Animable;
  trace : list Event
}.

(** The playback mode of the spec: time advances when the slot is not manual. *)
Definition auto_advance (a : Animable) : bool := negb (m_manual a).
End Data.

Arguments Animable : clear implicits.
Arguments Event : clear implicits.
Arguments Scene : clear implicits.

(** ** The collaborators of the scene

    What the member functions read from outside the array: the addresses of the
    scene and of its universe, the render scene, the resource manager and the
    constants of the engine.  None of them is defined in the sources, so the
    translation takes them as they come. *)
Class Collaborators (float : Type) := {
  (** the address of the scene, [this] *)
  this : positive;
  (** the address of the universe the scene belongs to, [&m_universe] *)
  m_universe : positive;
  (** [m_render_scene->getRenderable]: the renderable of an entity, or an
      invalid handle *)
  getRenderable : Entity.t -> Component.t;
  (** [loadAnimation]: the resource manager's answer for a path *)
  loadAnimation : string -> option (Animation.t float);
  (** [crc32("animable")] and [crc32("renderable")] *)
  ANIMABLE_HASH : Z;
  RENDERABLE_HASH : Z;
  LUMIX_MAX_PATH : Z;
  (** the contents of an element that [Array::resize] has just constructed *)
  blank : Animable float
}.

(** ** The member functions of [AnimationSceneImpl] *)

Section AnimationScene.
Context {float : Type} {arith : FloatArith float} {env : Collaborators float}.

Abbreviation Animable := (Animable float).
Abbreviation Scene := (Scene float).

(** [m_animables[i]] for an [int] index. *)
Definition at_index (tbl : list Animable) (i : Z) : result Animable :=
  if i <? 0 then Err OutOfRange
  else match tbl !! Z.to_nat i with
       | Some a => Ok a
       | None => Err OutOfRange
       end.

(** [ownComponentType], line 62. *)
Definition ownComponentType (type : Z) : bool := type =? ANIMABLE_HASH.

(** [getAnimable], lines 68-78: the first slot whose entity is [entity]. *)
Definition getAnimable (sc : Scene) (entity : Entity.t) : Component.t :=
  match list_find (fun a => m_entity a = entity) (m_animables sc) with
  | Some (i, _) => Component.mk entity ANIMABLE_HASH (Some this) (Z.of_nat i)
  | None => Component.INVALID
  end.

(** [onComponentCreated], lines 230-243: the first slot whose entity is the
    entity of [cmp] takes [cmp] as its renderable, and the loop stops. *)
Definition onComponentCreated (cmp : Component.t) (sc : Scene) : Scene :=
  if Component.type cmp =? RENDERABLE_HASH then
    match list_find (fun a => m_entity a = Component.entity cmp) (m_animables sc) with
    | Some (i, a) =>
        {| m_animables :=
             <[i := {| m_manual := m_manual a; m_is_free := m_is_free a;
                       m_renderable := cmp; m_time := m_time a;
                       m_animation := m_animation a; m_entity := m_entity a |}]>
               (m_animables sc);
           trace := trace sc |}
    | None => sc
    end
  else sc.

(** The slot [createAnimable] fills in, lines 258-269: every field is
    assigned, so what the slot held before does not matter. *)
Definition new_animable (entity : Entity.t) : Animable :=
  let renderable := getRenderable entity in
  {| m_manual := true;
     m_time := f_zero;
     m_is_free := false;
     m_renderable := if Component.isValid renderable then renderable
                     else Component.INVALID;
     m_animation := None;
     m_entity := entity |}.

(** The index of the slot [createAnimable] picks, lines 248-257: the first
    free one, or one past the end when [pushEmpty] appends. *)
Definition allocated_index (tbl : list Animable) : nat :=
  match list_find (fun a => m_is_free a = true) tbl with
  | Some (i, _) => i
  | None => length tbl
  end.

(** The array once [createAnimable] has picked its slot and assigned it. *)
Definition allocate (entity : Entity.t) (tbl : list Animable) : list Animable :=
  match list_find (fun a => m_is_free a = true) tbl with
  | Some (i, _) => <[i := new_animable entity]> tbl
  | None => tbl ++ [new_animable entity]
  end.

(** [createAnimable], lines 246-274.  Modelled from the spec:
    [Universe::addComponent] returns the handle [{entity, kind, scene,
    index}] of its arguments.  The scene has subscribed its own
    [onComponentCreated] to [componentCreated ()] (line 52), so [invoke]
    runs it. *)
Definition createAnimable (entity : Entity.t) (sc : Scene) : Component.t * Scene :=
  let tbl := allocate entity (m_animables sc) in
  let cmp := Component.mk entity ANIMABLE_HASH (Some this) (Z.of_nat (length tbl) - 1) in
  (cmp, onComponentCreated cmp
          {| m_animables := tbl;
             trace := trace sc ++ [AddComponent cmp; ComponentCreated cmp] |}).

(** [createComponent], lines 82-89. *)
Definition createComponent (type : Z) (entity : Entity.t) (sc : Scene)
  : Component.t * Scene :=
  if type =? ANIMABLE_HASH then createAnimable entity sc
  else (Component.INVALID, sc).

(** [m_animables[i].field = ...] *)
Definition assign_at (i : Z) (f : Animable -> Animable) (tbl : list Animable)
  : result (list Animable) :=
  a ← at_index tbl i;
  Ok (<[Z.to_nat i := f a]> tbl).

(** [destroyComponent], lines 92-96. *)
Definition destroyComponent (component : Component.t) (sc : Scene) : result Scene :=
  tbl ← assign_at (Component.index component)
        (fun a => {| m_manual := m_manual a; m_is_free := true;
                     m_renderable := m_renderable a; m_time := m_time a;
                     m_animation := m_animation a; m_entity := m_entity a |})
        (m_animables sc);
  Ok {| m_animables := tbl; trace := trace sc ++ [DestroyComponent component] |}.

(** [isManual] and [setManual], lines 144-153. *)
Definition isManual (cmp : Component.t) (sc : Scene) : result bool :=
  a ← at_index (m_animables sc) (Component.index cmp);
  Ok (m_manual a).

Definition setManual (cmp : Component.t) (is_manual : bool) (sc : Scene) : result Scene :=
  tbl ← assign_at (Component.index cmp)
        (fun a => {| m_manual := is_manual; m_is_free := m_is_free a;
                     m_renderable := m_renderable a; m_time := m_time a;
                     m_animation := m_animation a; m_entity := m_entity a |})
        (m_animables sc);
  Ok {| m_animables := tbl; trace := trace sc |}.

(** The path of the clip of a slot, [""] without a clip: the expression
    [m_animation ? m_animation->getPath().c_str() : ""] of [getPreview] and
    of [serialize]. *)
Definition preview_path (a : Animable) : string :=
  match m_animation a with
  | Some anim => Animation.getPath anim
  | None => EmptyString
  end.

(** [getPreview] and [setPreview], lines 156-165. *)
Definition getPreview (cmp : Component.t) (sc : Scene) : result string :=
  a ← at_index (m_animables sc) (Component.index cmp);
  Ok (preview_path a).

(** [playAnimation], lines 168-173. *)
Definition playAnimation (cmp : Component.t) (path : string) (sc : Scene) : result Scene :=
  tbl ← assign_at (Component.index cmp)
        (fun a => {| m_manual := false; m_is_free := m_is_free a;
                     m_renderable := m_renderable a; m_time := f_zero;
                     m_animation := loadAnimation path; m_entity := m_entity a |})
        (m_animables sc);
  Ok {| m_animables := tbl; trace := trace sc |}.

Definition setPreview (cmp : Component.t) (path : string) (sc : Scene) : result Scene :=
  playAnimation cmp path sc.

(** [getFrameCount], lines 185-192. *)
Definition getFrameCount (cmp : Component.t) (sc : Scene) : result Z :=
  a ← at_index (m_animables sc) (Component.index cmp);
  Ok (match m_animation a with
      | Some anim => Animation.getFrameCount anim
      | None => -1
      end).

(** [while (t > l) t -= l;], lines 211-214. *)
Fixpoint wrap (fuel : nat) (t l : float) : result float :=
  match fuel with
  | O => Err OutOfFuel
  | S fuel' => if f_gt t l then wrap fuel' (f_sub t l) l else Ok t
  end.

(** The body of the loop of [update], lines 202-217, for one slot.  The
    pose is computed for every live slot with a loaded clip, through the
    scene of its binding, before the time advances. *)
Definition update_animable (fuel : nat) (time_delta : float) (animable : Animable)
  : result (Animable * list (Event float)) :=
  match m_animation animable with
  | Some anim =>
      if negb (m_is_free animable) && Animation.isReady anim then
        match Component.scene (m_renderable animable) with
        | None => Err NullPointer
        | Some _ =>
            let pose := GetPose anim (m_time animable) (m_renderable animable) in
            if negb (m_manual animable) then
              t ← wrap fuel (f_add (m_time animable) time_delta) (Animation.getLength anim);
              Ok ({| m_manual := m_manual animable; m_is_free := m_is_free animable;
                     m_renderable := m_renderable animable; m_time := t;
                     m_animation := m_animation animable;
                     m_entity := m_entity animable |}, [pose])
            else Ok (animable, [pose])
        end
      else Ok (animable, [])
  | None => Ok (animable, [])
  end.

Fixpoint update_loop (fuel : nat) (time_delta : float) (tbl : list Animable)
  : result (list Animable * list (Event float)) :=
  match tbl with
  | [] => Ok ([], [])
  | animable :: rest =>
      '(animable', poses) ← update_animable fuel time_delta animable;
      '(rest', poses') ← update_loop fuel time_delta rest;
      Ok (animable' :: rest', poses ++ poses')
  end.

(** [update], lines 195-219. *)
Definition update (fuel : nat) (time_delta : float) (sc : Scene) : result Scene :=
  '(tbl, poses) ← update_loop fuel time_delta (m_animables sc);
  Ok {| m_animables := tbl; trace := trace sc ++ poses |}.

(** Successive frames: [update (dt1); update (dt2); ...] *)
Fixpoint updates (fuel : nat) (deltas : list float) (sc : Scene) : result Scene :=
  match deltas with
  | [] => Ok sc
  | time_delta :: later =>
      sc' ← update fuel time_delta sc;
      updates fuel later sc'
  end.

(** *** Sequences of creations and destructions *)

Inductive operation :=
  | Create (entity : Entity.t)
  | Destroy (component : Component.t).

Fixpoint run (ops : list operation) (sc : Scene) : result Scene :=
  match ops with
  | [] => Ok sc
  | Create entity :: later => run later (createAnimable entity sc).2
  | Destroy component :: later =>
      sc' ← destroyComponent component sc;
      run later sc'
  end.

(** The entity has a live slot. *)
Definition has_live (entity : Entity.t) (tbl : list Animable) : Prop :=
  exists i a, tbl !! i = Some a /\ m_is_free a = false /\ m_entity a = entity.

(** At most one live slot per entity. *)
Definition unique_live (tbl : list Animable) : Prop :=
  forall i j a b,
    tbl !! i = Some a -> tbl !! j = Some b ->
    m_is_free a = false -> m_is_free b = false ->
    m_entity a = m_entity b -> i = j.

(** Every creation of the sequence is for an entity without a live slot at
    that moment. *)
Fixpoint creates_fresh (ops : list operation) (sc : Scene) : Prop :=
  match ops with
  | [] => True
  | Create entity :: later =>
      ~ has_live entity (m_animables sc)
      /\ creates_fresh later (createAnimable entity sc).2
  | Destroy component :: later =>
      match destroyComponent component sc with
      | Ok sc' => creates_fresh later sc'
      | Err _ => True
      end
  end.

(** *** Persistence *)

Context {bits : FloatBits float}.

(** The five writes of the body of the loop of [serialize], lines
    104-108. *)
Definition serialize_animable (a : Animable) : blob :=
  write_bool (m_manual a)
  ++ write_int32 (Entity.index (Component.entity (m_renderable a)))
  ++ write_float (m_time a)
  ++ write_bool (m_is_free a)
  ++ writeString (preview_path a).

(** [serialize], lines 99-110. *)
Definition serialize (sc : Scene) : blob :=
  write_int32 (Z.of_nat (length (m_animables sc)))
  ++ flat_map serialize_animable (m_animables sc).

(** The body of the loop of [deserialize], lines 120-133, for slot [i],
    whose previous contents are [old]. *)
Definition deserialize_animable (i : nat) (old : Animable) (b : blob)
  : result (Animable * Event float * blob) :=
  '(manual, b) ← read_bool b;
  '(index, b) ← read_int32 b;
  let entity := Entity.mk index (Some m_universe) in
  let renderable := getRenderable entity in
  '(time, b) ← read_float b;
  '(is_free, b) ← read_bool b;
  '(path, b) ← readString LUMIX_MAX_PATH b;
  Ok ({| m_manual := manual;
         m_is_free := is_free;
         m_renderable := if Component.isValid renderable then renderable
                         else m_renderable old;
         m_time := time;
         m_animation := match path with
                        | EmptyString => None
                        | _ => loadAnimation path
                        end;
         m_entity := entity |},
      AddComponent (Component.mk entity ANIMABLE_HASH (Some this) (Z.of_nat i)),
      b).

Fixpoint deserialize_loop (i : nat) (slots : list Animable) (b : blob)
  : result (list Animable * list (Event float) * blob) :=
  match slots with
  | [] => Ok ([], [], b)
  | old :: rest =>
      '(a, ev, b) ← deserialize_animable i old b;
      '(rest', evs, b) ← deserialize_loop (S i) rest b;
      Ok (a :: rest', ev :: evs, b)
  end.

(** [deserialize], lines 113-135; it returns the rest of the blob. *)
Definition deserialize (b : blob) (sc : Scene) : result (Scene * blob) :=
  '(count, b) ← read_int32 b;
  if count <? 0 then Err BadBlob
  else
    '(tbl, evs, b) ← deserialize_loop 0 (resize (Z.to_nat count) blank (m_animables sc)) b;
    Ok ({| m_animables := tbl; trace := trace sc ++ evs |}, b).

(** A string without a NUL character, which [c_str ()] gives back whole. *)
Definition c_string (s : string) : Prop :=
  c_str (list_byte_of_string s) = list_byte_of_string s.

(** A slot the blob can hold: the entity index of its binding is an
    [int32_t], its time is a [float] with its four bytes, the path of its clip
    is a C string that fits the buffer of [deserialize], and the resource
    manager answers that path with a clip of that path. *)
Definition storable (a : Animable) : Prop :=
  - 2 ^ 31 <= Entity.index (Component.entity (m_renderable a)) < 2 ^ 31
  /\ 0 <= f_to_bits (m_time a) < 2 ^ 32
  /\ f_of_bits (f_to_bits (m_time a)) = m_time a
  /\ c_string (preview_path a)
  /\ Z.of_nat (String.length (preview_path a)) + 1 <= LUMIX_MAX_PATH
  /\ Z.of_nat (String.length (preview_path a)) + 1 < 2 ^ 31
  /\ (preview_path a <> EmptyString ->
      exists anim, loadAnimation (preview_path a) = Some anim
                   /\ Animation.getPath anim = preview_path a).

(** What [deserialize] brings back of a slot [a] in the slot [a'] it
    fills: the mode, the time, the flag, the path of the clip, and as entity
    index the one that [serialize] took from the binding. *)
Definition restored (a a' : Animable) : Prop :=
  m_manual a' = m_manual a
  /\ m_time a' = m_time a
  /\ m_is_free a' = m_is_free a
  /\ preview_path a' = preview_path a
  /\ m_entity a'
     = Entity.mk (Entity.index (Component.entity (m_renderable a))) (Some m_universe).

End AnimationScene.

(** ** The arithmetic of the compiler *)

(** IEEE 754 binary32, the [float] of the C++ compiler: 24 bits of precision,
    round to nearest even, with its image in memory. *)
Module Binary32.
Definition prec : Z := 24.
Definition emax : Z := 128.

Definition add : spec_float -> spec_float -> spec_float := SFadd prec emax.
Definition sub : spec_float -> spec_float -> spec_float := SFsub prec emax.
Definition gt (a b : spec_float) : bool := SFltb b a.

Definition sign_bit (s : bool) : Z := if s then 2 ^ 31 else 0.

Definition to_bits (f : spec_float) : Z :=
  match f with
  | S754_zero s => sign_bit s
  | S754_infinity s => sign_bit s + 255 * 2 ^ 23
  | S754_nan => 255 * 2 ^ 23 + 2 ^ 22
  | S754_finite s m e =>
      if Z.pos m <? 2 ^ 23 then sign_bit s + Z.pos m
      else sign_bit s + (e + 150) * 2 ^ 23 + (Z.pos m - 2 ^ 23)
  end.

Definition of_bits (z : Z) : spec_float :=
  let s := 2 ^ 31 <=? z in
  let e := (z / 2 ^ 23) mod 2 ^ 8 in
  let m := z mod 2 ^ 23 in
  if e =? 0 then
    match m with
    | Z.pos p => S754_finite s p (-149)
    | _ => S754_zero s
    end
  else if e =? 255 then
    match m with
    | Z.pos _ => S754_nan
    | _ => S754_infinity s
    end
  else
    match m + 2 ^ 23 with
    | Z.pos p => S754_finite s p (e - 150)
    | _ => S754_nan
    end.

#[global] Instance arith : FloatArith spec_float :=
  {| f_zero := S754_zero false; f_add := add; f_sub := sub; f_gt := gt |}.

#[global] Instance bits : FloatBits spec_float :=
  {| f_to_bits := to_bits; f_of_bits := of_bits |}.

End Binary32.

(** Rational numbers, to speak of the values of times. *)
Module Exact.
End Exact.

(** ** Frames without rounding *)

Section Values.
Context {float : Type} {arith : FloatArith float}.

(** The rational number a [float] stands for, if it is finite. *)
Variable value : float -> option Q.





End Values.

(** ** Setting the time by frame *)

(** Scaling of [float]: the product, the quotient, and the conversion of an
    [int] that the C++ compiler inserts. *)
Class FloatScale (float : Type) := {
  f_mul : float -> float -> float;
  f_div : float -> float -> float;
  f_of_int : Z -> float
}.

Section Frames.
Context {float : Type} {scale : FloatScale float}.

(** Modelled from the spec: [Animation::getFPS], the playback rate of a clip
    in frames per second, as the [float] the division of [setFrame] takes
    (animation/animation.h is not part of the sources). *)
Variable getFPS : Animation.t float -> float.

(** [setFrame], lines 138-141.  The clip is read through [m_animation]
    without a test. *)
Definition setFrame (cmp : Component.t) (frame : Z) (sc : Scene float)
  : result (Scene float) :=
  a ← at_index (m_animables sc) (Component.index cmp);
  match m_animation a with
  | None => Err NullPointer
  | Some anim =>
      Ok {| m_animables :=
              <[Z.to_nat (Component.index cmp) :=
                  {| m_manual := m_manual a; m_is_free := m_is_free a;
                     m_renderable := m_renderable a;
                     m_time := f_div (f_mul (Animation.getLength anim) (f_of_int frame))
                                 (getFPS anim);
                     m_animation := m_animation a; m_entity := m_entity a |}]>
                (m_animables sc);
            trace := trace sc |}
  end.

(** [setAnimationFrame], lines 176-182. *)
Definition setAnimationFrame (cmp : Component.t) (frame : Z) (sc : Scene float)
  : result (Scene float) :=
  a ← at_index (m_animables sc) (Component.index cmp);
  match m_animation a with
  | Some anim =>
      Ok {| m_animables :=
              <[Z.to_nat (Component.index cmp) :=
                  {| m_manual := m_manual a; m_is_free := m_is_free a;
                     m_renderable := m_renderable a;
                     m_time := f_div (f_mul (Animation.getLength anim) (f_of_int frame))
                                 (f_of_int (Animation.getFrameCount anim));
                     m_animation := m_animation a; m_entity := m_entity a |}]>
                (m_animables sc);
            trace := trace sc |}
  | None => Ok sc
  end.

End Frames.

#[global] Instance binary32_scale : FloatScale spec_float :=
  {| f_mul := SFmul Binary32.prec Binary32.emax;
     f_div := SFdiv Binary32.prec Binary32.emax;
     f_of_int := fun z => binary_normalize Binary32.prec Binary32.emax z 0 false |}.

(** ** Notions the properties use *)

Section Notions.
Context {float : Type} {arith : FloatArith float} {env : Collaborators float}.

(** The number of live slots. *)
Definition live_count (tbl : list (Animable float)) : nat :=
  length (filter (fun a => m_is_free a = false) tbl).

(** Every creation of the sequence happens while fewer than [n] slots are
    live. *)
Fixpoint creates_below (n : nat) (ops : list operation) (sc : Scene float) : Prop :=
  match ops with
  | [] => True
  | Create entity :: later =>
      (live_count (m_animables sc) < n)%nat
      /\ creates_below n later (createAnimable entity sc).2
  | Destroy component :: later =>
      match destroyComponent component sc with
      | Ok sc' => creates_below n later sc'
      | Err _ => True
      end
  end.

(** The call of [getPose] that [update] makes for a slot, if any. *)
Definition pose_of (a : Animable float) : list (Event float) :=
  match m_animation a with
  | Some anim =>
      if negb (m_is_free a) && Animation.isReady anim
      then [GetPose anim (m_time a) (m_renderable a)]
      else []
  | None => []
  end.

(** A slot whose time [update] advances. *)
Definition advancing (a : Animable float) (anim : Animation.t float) : Prop :=
  m_animation a = Some anim /\ m_is_free a = false
  /\ Animation.isReady anim = true /\ m_manual a = false.

(** A slot [update] passes over without touching its time. *)
Definition idle (a : Animable float) : Prop :=
  m_manual a = true \/ m_is_free a = true
  \/ match m_animation a with
     | Some anim => Animation.isReady anim = false
     | None => True
     end.

(** A slot that a save and a load give back as it is: its entity is of the
    universe of the scene, its binding is the valid renderable the render
    scene has for that entity, and its clip, if any, has a path that is not
    empty and that the loader answers with that clip. *)
Definition settled (a : Animable float) : Prop :=
  Entity.universe (m_entity a) = Some m_universe
  /\ getRenderable (m_entity a) = m_renderable a
  /\ Component.isValid (m_renderable a) = true
  /\ Component.entity (m_renderable a) = m_entity a
  /\ (forall anim, m_animation a = Some anim ->
        Animation.getPath anim <> EmptyString
        /\ loadAnimation (Animation.getPath anim) = Some anim).

End Notions.

(** ** Concrete worlds and scenes *)

Module Sample.
Definition universe_address : positive := 1.
Definition scene_address : positive := 2.
Definition render_scene_address : positive := 3.
Definition animable_hash : Z := 3505036238.
Definition renderable_hash : Z := 1512583253.

Definition entity (i : Z) : Entity.t := Entity.mk i (Some universe_address).

(** The renderable of entity [i], component [slot] of the render scene. *)
Definition renderable (i slot : Z) : Component.t :=
  Component.mk (entity i) renderable_hash (Some render_scene_address) slot.

(** 2.0 and 1.2 as binary32 numbers (0x40000000 and 0x3F99999A). *)
Definition two : spec_float := S754_finite false 8388608 (-22).
Definition one_point_two : spec_float := S754_finite false 10066330 (-23).

(** A loaded clip of two seconds. *)
Definition clip (path : string) : Animation.t spec_float :=
  Animation.mk path two 60 true.

Definition vacant : Animable spec_float :=
  {| m_manual := false; m_is_free := true; m_renderable := Component.INVALID;
     m_time := S754_zero false; m_animation := None;
     m_entity := Entity.INVALID |}.

(** A world in which no entity has a renderable. *)
Definition bare : Collaborators spec_float :=
  {| this := scene_address; m_universe := universe_address;
     getRenderable := fun _ => Component.INVALID;
     loadAnimation := fun path => Some (clip path);
     ANIMABLE_HASH := animable_hash; RENDERABLE_HASH := renderable_hash;
     LUMIX_MAX_PATH := 260; blank := vacant |}.

(** A world in which entity [i] has the renderable [i] of the render scene. *)
Definition rendered : Collaborators spec_float :=
  {| this := scene_address; m_universe := universe_address;
     getRenderable := fun e => renderable (Entity.index e) (Entity.index e);
     loadAnimation := fun path => Some (clip path);
     ANIMABLE_HASH := animable_hash; RENDERABLE_HASH := renderable_hash;
     LUMIX_MAX_PATH := 260; blank := vacant |}.

Definition empty : Scene spec_float := {| m_animables := []; trace := [] |}.

(** A live slot of entity [i] with the given binding and clip. *)
Definition live (i : Z) (binding : Component.t) (time : spec_float)
    (anim : option (Animation.t spec_float)) : Animable spec_float :=
  {| m_manual := false; m_is_free := false; m_renderable := binding;
     m_time := time; m_animation := anim; m_entity := entity i |}.

(** The slot of entity [i] once it has been destroyed. *)
Definition destroyed (i : Z) (anim : option (Animation.t spec_float))
  : Animable spec_float :=
  {| m_manual := false; m_is_free := true; m_renderable := Component.INVALID;
     m_time := S754_zero false; m_animation := anim; m_entity := entity i |}.

Definition scene_of (tbl : list (Animable spec_float)) : Scene spec_float :=
  {| m_animables := tbl; trace := [] |}.

(** One live slot at time 0 that plays a loaded clip of two seconds on a
    bound renderable. *)
Definition walking : Scene spec_float :=
  scene_of [live 1 (renderable 1 1) (S754_zero false) (Some (clip "walk.ani"))].

(** The handle of the animable of entity [i] in slot [slot]. *)
Definition handle (i slot : Z) : Component.t :=
  Component.mk (entity i) animable_hash (Some scene_address) slot.

(** A scene to save, in the world without renderables: components are
    created for entities 1 and 2, a clip is assigned to the first, and the
    first is destroyed. *)
Definition saved : result (Scene spec_float) :=
  sc ← playAnimation (env := bare) (handle 1 0) "walk.ani"
         (createAnimable (env := bare) (entity 2)
            (createAnimable (env := bare) (entity 1) empty).2).2;
  destroyComponent (handle 1 0) sc.

(** A scene to save, in the world with renderables: a bound slot that plays
    a clip, and a vacant slot. *)
Definition playing : Scene spec_float :=
  scene_of [live 1 (renderable 1 1) one_point_two (Some (clip "walk.ani"));
            destroyed 2 None].
End Sample.

(** ** More concrete scenes *)

Module Scenes.
Import Sample.

(** 1.0 as a binary32 number (0x3F800000). *)
Definition one : spec_float := S754_finite false 8388608 (-23).

(** -1.0 as a binary32 number (0xBF800000). *)
Definition minus_one : spec_float := S754_finite true 8388608 (-23).

(** A loaded clip without duration. *)
Definition pause : Animation.t spec_float :=
  Animation.mk "pause.ani" (S754_zero false) 1 true.

(** A clip that is still loading. *)
Definition loading : Animation.t spec_float :=
  Animation.mk "run.ani" two 60 false.

(** One live slot at time 0 that plays the clip without duration. *)
Definition still : Scene spec_float :=
  scene_of [live 1 (renderable 1 1) (S754_zero false) (Some pause)].

(** The slot of entity [i], bound and manual, at 1.2 s in a loaded clip. *)
Definition scrubbed (i : Z) : Animable spec_float :=
  {| m_manual := true; m_is_free := false; m_renderable := renderable i i;
     m_time := one_point_two; m_animation := Some (clip "walk.ani");
     m_entity := entity i |}.

(** Four slots: one that advances, one that is manual, one that was
    destroyed with its clip, one whose clip is loading. *)
Definition stage : Scene spec_float :=
  scene_of [live 1 (renderable 1 1) one (Some (clip "walk.ani"));
            scrubbed 2;
            destroyed 3 (Some (clip "walk.ani"));
            live 4 (renderable 4 4) one (Some loading)].

(** The frame rate of every clip of these scenes: 30 frames per second. *)
Definition thirty (anim : Animation.t spec_float) : spec_float :=
  f_of_int 30.

(** Two slots in an array of two: entity 1 created, entity 2 created. *)
Definition pair : Scene spec_float :=
  (createAnimable (env := bare) (entity 2)
     (createAnimable (env := bare) (entity 1) empty).2).2.
End Scenes.

(** * Properties *)

(** ** Creation, destruction and lookup *)

Section Lifecycle.
Context {float : Type} {arith : FloatArith float} {env : Collaborators float}.
Implicit Types (sc : Scene float) (a : Animable float) (tbl : list (Animable float)).
Implicit Types (entity : Entity.t) (cmp : Component.t).

Lemma at_index_lookup tbl i a :
  at_index tbl i = Ok a <-> 0 <= i /\ tbl !! Z.to_nat i = Some a.
Proof.
  unfold at_index. destruct (Z.ltb_spec i 0).
  - split; [discriminate | lia].
  - destruct (tbl !! Z.to_nat i); split; intros; try discriminate.
    + split; [lia | congruence].
    + f_equal. destruct H0. congruence.
    + destruct H0. discriminate.
Qed.

Lemma assign_at_Ok i f tbl a :
  at_index tbl i = Ok a ->
  assign_at i f tbl = Ok (<[Z.to_nat i := f a]> tbl).
Proof. intros H. unfold assign_at. rewrite H. reflexivity. Qed.

Lemma onComponentCreated_other cmp sc :
  Component.type cmp <> RENDERABLE_HASH -> onComponentCreated cmp sc = sc.
Proof.
  intros H. unfold onComponentCreated.
  destruct (Z.eqb_spec (Component.type cmp) RENDERABLE_HASH); [contradiction | reflexivity].
Qed.

Lemma createAnimable_table entity sc :
  ANIMABLE_HASH <> RENDERABLE_HASH ->
  m_animables (createAnimable entity sc).2 = allocate entity (m_animables sc).
Proof.
  intros H. unfold createAnimable. simpl.
  rewrite onComponentCreated_other; [reflexivity | exact H].
Qed.

Lemma allocate_lookup entity tbl :
  allocate entity tbl !! allocated_index tbl = Some (new_animable entity).
Proof.
  unfold allocate, allocated_index.
  destruct (list_find _ tbl) as [[i x]|] eqn:E.
  - apply list_find_Some in E as (Hi & _ & _).
    apply list_lookup_insert_eq. eapply lookup_lt_Some, Hi.
  - rewrite lookup_app_r by lia. rewrite Nat.sub_diag. reflexivity.
Qed.

Lemma allocate_lookup_ne entity tbl j :
  j <> allocated_index tbl -> (j < length tbl)%nat ->
  allocate entity tbl !! j = tbl !! j.
Proof.
  unfold allocate, allocated_index. intros Hj Hlt.
  destruct (list_find _ tbl) as [[i x]|] eqn:E.
  - apply list_lookup_insert_ne. congruence.
  - apply lookup_app_l. exact Hlt.
Qed.

Lemma allocate_length entity tbl :
  length (allocate entity tbl)
  = if decide (allocated_index tbl = length tbl) then S (length tbl) else length tbl.
Proof.
  unfold allocate, allocated_index.
  destruct (list_find _ tbl) as [[i x]|] eqn:E.
  - apply list_find_Some in E as (Hi & _ & _). apply lookup_lt_Some in Hi.
    rewrite length_insert. destruct (decide _); [lia | reflexivity].
  - rewrite length_app. simpl. destruct (decide _); [lia | congruence].
Qed.

Lemma allocated_index_free tbl :
  (allocated_index tbl < length tbl)%nat ->
  exists a, tbl !! allocated_index tbl = Some a /\ m_is_free a = true.
Proof.
  unfold allocated_index.
  destruct (list_find _ tbl) as [[i x]|] eqn:E; [|lia].
  intros _. apply list_find_Some in E as (Hi & Hf & _). eauto.
Qed.

Lemma allocated_index_le tbl : (allocated_index tbl <= length tbl)%nat.
Proof.
  unfold allocated_index.
  destruct (list_find _ tbl) as [[i x]|] eqn:E; [|lia].
  apply list_find_Some in E as (Hi & _ & _). apply lookup_lt_Some in Hi. lia.
Qed.

(** C10.  For a component type other than the animable type,
    [createComponent] returns the invalid handle and leaves the scene as it
    was: the array of slots is unchanged and nothing is announced to the
    universe. *)
Theorem createComponent_foreign_type type entity sc :
  type <> ANIMABLE_HASH ->
  createComponent type entity sc = (Component.INVALID, sc).
Proof.
  intros H. unfold createComponent.
  destruct (Z.eqb_spec type ANIMABLE_HASH); [contradiction | reflexivity].
Qed.

(** C6.  [playAnimation] on a slot of the array gives it the clip the loader
    returns for the path, time 0 and automatic mode, whatever its time, mode
    and clip were; its other fields, the other slots and the trace stay. *)
Theorem playAnimation_restarts cmp path sc a :
  at_index (m_animables sc) (Component.index cmp) = Ok a ->
  exists sc' a',
    playAnimation cmp path sc = Ok sc'
    /\ at_index (m_animables sc') (Component.index cmp) = Ok a'
    /\ m_animation a' = loadAnimation path
    /\ m_time a' = f_zero
    /\ auto_advance a' = true
    /\ m_is_free a' = m_is_free a
    /\ m_entity a' = m_entity a
    /\ m_renderable a' = m_renderable a
    /\ length (m_animables sc') = length (m_animables sc)
    /\ (forall j, j <> Z.to_nat (Component.index cmp) ->
          m_animables sc' !! j = m_animables sc !! j)
    /\ trace sc' = trace sc.
Proof.
  intros H. unfold playAnimation.
  rewrite (assign_at_Ok _ _ _ _ H). simpl.
  apply at_index_lookup in H as [Hi Ha].
  eexists _, _. split; [reflexivity|]. simpl.
  split.
  { apply at_index_lookup. split; [exact Hi|].
    apply list_lookup_insert_eq. eapply lookup_lt_Some, Ha. }
  simpl. repeat split; try reflexivity.
  - apply length_insert.
  - intros j Hj. apply list_lookup_insert_ne. congruence.
Qed.

(** C1, as the code has it.  [createAnimable] fills the slot it picks with
    manual mode (so time does not advance by itself), time 0, no clip, the
    entity, and the renderable of the entity when the render scene has a
    valid one; the binding is invalid exactly when the render scene has
    none. *)
Theorem createAnimable_initializes entity sc :
  ANIMABLE_HASH <> RENDERABLE_HASH ->
  exists a,
    m_animables (createAnimable entity sc).2 !! allocated_index (m_animables sc) = Some a
    /\ auto_advance a = false
    /\ m_time a = f_zero
    /\ m_animation a = None
    /\ m_is_free a = false
    /\ m_entity a = entity
    /\ (Component.isValid (m_renderable a) = false
        <-> Component.isValid (getRenderable entity) = false)
    /\ (Component.isValid (getRenderable entity) = true ->
        m_renderable a = getRenderable entity).
Proof.
  intros H. exists (new_animable entity).
  rewrite createAnimable_table by exact H.
  split; [apply allocate_lookup|].
  unfold new_animable, auto_advance. simpl.
  repeat split; try reflexivity.
  - destruct (Component.isValid (getRenderable entity)) eqn:Hv; [|reflexivity].
    rewrite Hv. discriminate.
  - intros Hv. rewrite Hv. reflexivity.
  - intros Hv. rewrite Hv. reflexivity.
Qed.

Lemma allocate_lookup_inv entity tbl j a :
  allocate entity tbl !! j = Some a ->
  (j = allocated_index tbl /\ a = new_animable entity)
  \/ (j <> allocated_index tbl /\ tbl !! j = Some a).
Proof.
  intros H. destruct (decide (j = allocated_index tbl)) as [->|Hne].
  - left. rewrite allocate_lookup in H. split; congruence.
  - right. split; [exact Hne|].
    rewrite <- H. symmetry. apply allocate_lookup_ne; [exact Hne|].
    apply lookup_lt_Some in H. rewrite allocate_length in H.
    destruct (decide _); lia.
Qed.

Lemma unique_live_allocate entity tbl :
  unique_live tbl -> ~ has_live entity tbl -> unique_live (allocate entity tbl).
Proof.
  intros Hu Hfresh i j a b Ha Hb Hfa Hfb Heq.
  apply allocate_lookup_inv in Ha as [[-> ->]|[Hi Ha]];
    apply allocate_lookup_inv in Hb as [[-> ->]|[Hj Hb]].
  - reflexivity.
  - exfalso. apply Hfresh. exists j, b. simpl in Heq. auto.
  - exfalso. apply Hfresh. exists i, a. simpl in Heq. auto.
  - eapply Hu; eassumption.
Qed.

Lemma unique_live_destroy tbl k a :
  unique_live tbl -> tbl !! k = Some a ->
  unique_live (<[k := {| m_manual := m_manual a; m_is_free := true;
                         m_renderable := m_renderable a; m_time := m_time a;
                         m_animation := m_animation a; m_entity := m_entity a |}]> tbl).
Proof.
  intros Hu Hk i j x y Hx Hy Hfx Hfy Heq.
  assert (Hlen : (k < length tbl)%nat) by (eapply lookup_lt_Some, Hk).
  destruct (decide (k = i)) as [->|Hi].
  { rewrite list_lookup_insert_eq in Hx by exact Hlen.
    injection Hx as <-. discriminate. }
  destruct (decide (k = j)) as [->|Hj].
  { rewrite list_lookup_insert_eq in Hy by exact Hlen.
    injection Hy as <-. discriminate. }
  rewrite list_lookup_insert_ne in Hx by exact Hi.
  rewrite list_lookup_insert_ne in Hy by exact Hj.
  eapply Hu; eassumption.
Qed.

(** C8, as the code has it.  [createAnimable] never looks for a slot the
    entity already has, so the array keeps at most one live slot per entity
    only as long as its callers create a component for an entity that has no
    live slot: from an array with the property, every such sequence of
    creations and destructions ends in an array with the property. *)
Theorem run_unique_live ops sc sc' :
  ANIMABLE_HASH <> RENDERABLE_HASH ->
  unique_live (m_animables sc) ->
  creates_fresh ops sc ->
  run ops sc = Ok sc' ->
  unique_live (m_animables sc').
Proof.
  intros Hhash. revert sc.
  induction ops as [|[entity|component] ops IH]; intros sc Hu Hfresh Hrun;
    cbn [run creates_fresh] in *.
  - injection Hrun as <-. exact Hu.
  - destruct Hfresh as [Hnone Hlater].
    apply (IH (createAnimable entity sc).2); [|exact Hlater|exact Hrun].
    rewrite createAnimable_table by exact Hhash.
    apply unique_live_allocate; assumption.
  - unfold destroyComponent in *.
    destruct (at_index (m_animables sc) (Component.index component)) as [a|e] eqn:Hat.
    + rewrite (assign_at_Ok _ _ _ _ Hat) in Hfresh, Hrun.
      apply at_index_lookup in Hat as [_ Hat].
      eapply IH; [|exact Hfresh|exact Hrun].
      apply unique_live_destroy; assumption.
    + unfold assign_at in Hrun. rewrite Hat in Hrun. discriminate.
Qed.

(** The first slot of the entity of [cmp], if any, is the only one
    [onComponentCreated] touches. *)
Lemma onComponentCreated_first cmp sc i a :
  Component.type cmp = RENDERABLE_HASH ->
  m_animables sc !! i = Some a ->
  m_entity a = Component.entity cmp ->
  (forall j b, (j < i)%nat -> m_animables sc !! j = Some b ->
               m_entity b <> Component.entity cmp) ->
  onComponentCreated cmp sc
  = {| m_animables :=
         <[i := {| m_manual := m_manual a; m_is_free := m_is_free a;
                   m_renderable := cmp; m_time := m_time a;
                   m_animation := m_animation a; m_entity := m_entity a |}]>
           (m_animables sc);
       trace := trace sc |}.
Proof.
  intros Ht Hi He Hfirst. unfold onComponentCreated.
  rewrite Ht, Z.eqb_refl.
  assert (Hfind : list_find (fun a => m_entity a = Component.entity cmp) (m_animables sc)
                  = Some (i, a)).
  { apply list_find_Some. split; [exact Hi|]. split; [exact He|].
    intros j b Hb Hlt. eapply Hfirst; eassumption. }
  rewrite Hfind. reflexivity.
Qed.

Lemma onComponentCreated_none cmp sc :
  (forall j b, m_animables sc !! j = Some b -> m_entity b <> Component.entity cmp) ->
  onComponentCreated cmp sc = sc.
Proof.
  intros Hnone. unfold onComponentCreated.
  destruct (Component.type cmp =? RENDERABLE_HASH); [|reflexivity].
  assert (Hfind : list_find (fun a => m_entity a = Component.entity cmp) (m_animables sc)
                  = None).
  { apply list_find_None, Forall_lookup. intros j b Hb. eapply Hnone, Hb. }
  rewrite Hfind. reflexivity.
Qed.

(** C9, as the code has it.  The notification of a component that is not a
    renderable changes nothing.  On the creation of a renderable for an
    entity, the binding goes to the first slot of the array whose entity is
    that entity, whatever the binding of that slot was; no other slot
    changes, the array keeps its length and the universe is not called;
    when no slot has that entity, the scene stays as it is.
    Consequently a slot created while its entity has no renderable, with no
    slot of that entity before it in the array, ends with the valid binding
    of the notification. *)
Theorem onComponentCreated_attaches cmp sc :
  (Component.type cmp <> RENDERABLE_HASH -> onComponentCreated cmp sc = sc)
  /\ (Component.type cmp = RENDERABLE_HASH ->
     (forall i a,
         m_animables sc !! i = Some a ->
         m_entity a = Component.entity cmp ->
         (forall j b, (j < i)%nat -> m_animables sc !! j = Some b ->
                      m_entity b <> Component.entity cmp) ->
         (exists a', m_animables (onComponentCreated cmp sc) !! i = Some a'
                     /\ m_renderable a' = cmp
                     /\ m_entity a' = m_entity a /\ m_is_free a' = m_is_free a
                     /\ m_manual a' = m_manual a /\ m_time a' = m_time a
                     /\ m_animation a' = m_animation a)
         /\ (forall j, j <> i ->
               m_animables (onComponentCreated cmp sc) !! j = m_animables sc !! j)
         /\ length (m_animables (onComponentCreated cmp sc)) = length (m_animables sc)
         /\ trace (onComponentCreated cmp sc) = trace sc)
     /\ ((forall j b, m_animables sc !! j = Some b -> m_entity b <> Component.entity cmp) ->
         onComponentCreated cmp sc = sc)
     /\ (forall sc0,
           ANIMABLE_HASH <> RENDERABLE_HASH ->
           sc = (createAnimable (Component.entity cmp) sc0).2 ->
           Component.isValid (getRenderable (Component.entity cmp)) = false ->
           Component.isValid cmp = true ->
           (forall j b, (j < allocated_index (m_animables sc0))%nat ->
                        m_animables sc0 !! j = Some b ->
                        m_entity b <> Component.entity cmp) ->
           exists a a',
             m_animables sc !! allocated_index (m_animables sc0) = Some a
             /\ Component.isValid (m_renderable a) = false
             /\ m_animables (onComponentCreated cmp sc) !! allocated_index (m_animables sc0)
                = Some a'
             /\ m_renderable a' = cmp
             /\ Component.isValid (m_renderable a') = true)).
Proof.
  split; [apply onComponentCreated_other|].
  intros Ht. split; [|split].
  - intros i a Hi He Hfirst.
    rewrite (onComponentCreated_first cmp sc i a Ht Hi He Hfirst). simpl. split.
    + eexists. split.
      * apply list_lookup_insert_eq. eapply lookup_lt_Some, Hi.
      * simpl. repeat split; reflexivity.
    + split; [|split; [apply length_insert | reflexivity]].
      intros j Hj. apply list_lookup_insert_ne. congruence.
  - apply onComponentCreated_none.
  - intros sc0 Hhash -> Hnone Hvalid Hbefore.
    set (k := allocated_index (m_animables sc0)).
    assert (Hk : m_animables (createAnimable (Component.entity cmp) sc0).2 !! k
                 = Some (new_animable (Component.entity cmp))).
    { rewrite createAnimable_table by exact Hhash. apply allocate_lookup. }
    exists (new_animable (Component.entity cmp)). eexists.
    split; [exact Hk|]. split.
    { unfold new_animable. simpl. rewrite Hnone. reflexivity. }
    rewrite (onComponentCreated_first cmp _ k _ Ht Hk eq_refl).
    + simpl. split.
      { apply list_lookup_insert_eq. eapply lookup_lt_Some, Hk. }
      simpl. split; [reflexivity | exact Hvalid].
    + intros j b Hlt Hb.
      rewrite createAnimable_table in Hb by exact Hhash.
      apply allocate_lookup_inv in Hb as [[-> _]|[_ Hb]]; [lia|].
      eapply Hbefore; eassumption.
Qed.

(** The handle [createAnimable] returns always carries the index of the last
    slot of the array. *)
Lemma createAnimable_handle entity sc :
  (createAnimable entity sc).1
  = Component.mk entity ANIMABLE_HASH (Some this)
      (Z.of_nat (length (allocate entity (m_animables sc))) - 1).
Proof. reflexivity. Qed.

(** No live slot with a ready clip gets through [update] without a call of
    [getPose], whether its binding is valid or not. *)
Lemma update_animable_poses fuel dt a anim r :
  m_animation a = Some anim -> m_is_free a = false -> Animation.isReady anim = true ->
  update_animable fuel dt a = Ok r ->
  exists t, r.2 = [GetPose anim t (m_renderable a)].
Proof.
  intros Hc Hf Hr. unfold update_animable. rewrite Hc, Hf, Hr. simpl.
  destruct (Component.scene (m_renderable a)); [|discriminate].
  destruct (negb (m_manual a)).
  - destruct (wrap _ _ _); simpl; [|discriminate].
    intros [= <-]. eauto.
  - intros [= <-]. eauto.
Qed.

End Lifecycle.

(** ** The lifecycle on concrete scenes *)

Section LifecycleRuns.
Import Sample.

Lemma createComponent_foreign_type_witness :
  createComponent (env := bare) renderable_hash (entity 1) empty
  = (Component.INVALID, empty).
Proof.
  apply (createComponent_foreign_type (env := bare)).
  vm_compute. discriminate.
Defined.

Lemma playAnimation_restarts_witness :
  exists sc' a',
    playAnimation (env := bare) (handle 1 0) "walk.ani"
      (scene_of [live 1 Component.INVALID two (Some (clip "run.ani"))]) = Ok sc'
    /\ at_index (m_animables sc') 0 = Ok a'
    /\ m_animation a' = Some (clip "walk.ani")
    /\ m_time a' = S754_zero false
    /\ auto_advance a' = true.
Proof.
  destruct (playAnimation_restarts (env := bare) (handle 1 0) "walk.ani"
              (scene_of [live 1 Component.INVALID two (Some (clip "run.ani"))])
              (live 1 Component.INVALID two (Some (clip "run.ani"))) eq_refl)
    as (sc' & a' & H1 & H2 & H3 & H4 & H5 & _).
  exists sc', a'. repeat split; assumption.
Defined.

(** C1 as the spec words it fails: the slot of a new component is in manual
    mode, so it does not advance by itself. *)
Lemma createAnimable_starts_manual :
  exists a,
    m_animables (createAnimable (env := bare) (entity 1) empty).2
      !! allocated_index (m_animables empty) = Some a
    /\ auto_advance a <> true.
Proof. eexists. split; [reflexivity|]. vm_compute. discriminate. Qed.

Lemma createAnimable_initializes_witness :
  exists a,
    m_animables (createAnimable (env := rendered) (entity 1) empty).2 !! 0%nat = Some a
    /\ auto_advance a = false
    /\ m_time a = S754_zero false
    /\ m_animation a = None
    /\ m_renderable a = renderable 1 1.
Proof.
  destruct (createAnimable_initializes (env := rendered) (entity 1) empty)
    as (a & H1 & H2 & H3 & H4 & _ & _ & _ & H8).
  { vm_compute. discriminate. }
  exists a. repeat split; try assumption. apply H8. reflexivity.
Defined.

(** C3 on a scene the code reaches: two components are created and the first
    is destroyed; the next creation fills slot 0 again, and the handle it
    returns carries index 1, the slot of the other entity. *)
Theorem createAnimable_reused_slot_handle :
  exists sc,
    run (env := bare) [Create (entity 1); Create (entity 2); Destroy (handle 1 0)] empty
    = Ok sc
    /\ allocated_index (m_animables sc) = 0%nat
    /\ Component.index (createAnimable (env := bare) (entity 3) sc).1 = 1
    /\ m_entity <$> m_animables (createAnimable (env := bare) (entity 3) sc).2 !! 0%nat
       = Some (entity 3)
    /\ m_entity <$> m_animables (createAnimable (env := bare) (entity 3) sc).2 !! 1%nat
       = Some (entity 2).
Proof. eexists. split; [reflexivity|]. vm_compute. auto. Qed.

(** C7 on a scene the code reaches: the component of an entity is created
    and destroyed; [getAnimable] still returns a valid handle to the slot,
    which is free. *)
Theorem getAnimable_returns_destroyed_slot :
  exists sc a,
    run (env := bare) [Create (entity 1); Destroy (handle 1 0)] empty = Ok sc
    /\ m_animables sc !! 0%nat = Some a
    /\ m_is_free a = true
    /\ getAnimable (env := bare) sc (entity 1) = handle 1 0
    /\ Component.isValid (getAnimable (env := bare) sc (entity 1)) = true.
Proof. eexists _, _. split; [reflexivity|]. vm_compute. auto. Qed.

(** C4 on a scene the code reaches: a component is created for an entity
    without renderable and a loaded clip is assigned to it; [update] then
    calls [getPose] through the null scene of the invalid binding. *)
Theorem update_invalid_binding_null_pointer :
  exists sc a anim,
    playAnimation (env := bare) (handle 1 0) "walk.ani"
      (createAnimable (env := bare) (entity 1) empty).2 = Ok sc
    /\ m_animables sc !! 0%nat = Some a
    /\ m_is_free a = false
    /\ m_animation a = Some anim
    /\ Animation.isReady anim = true
    /\ Component.isValid (m_renderable a) = false
    /\ forall fuel dt, update fuel dt sc = Err NullPointer.
Proof.
  eexists _, _, _. split; [reflexivity|].
  split; [reflexivity|]. repeat split.
Qed.

(** C8 as the spec words it fails: two creations for one entity leave two
    live slots of that entity. *)
Lemma createAnimable_twice_not_unique :
  exists sc,
    run (env := bare) [Create (entity 1); Create (entity 1)] empty = Ok sc
    /\ ~ unique_live (m_animables sc).
Proof.
  eexists. split; [reflexivity|]. intros H.
  specialize (H 0%nat 1%nat _ _ eq_refl eq_refl eq_refl eq_refl eq_refl).
  discriminate.
Qed.

Lemma run_unique_live_witness :
  exists sc,
    run (env := bare)
      [Create (entity 1); Create (entity 2); Destroy (handle 1 0); Create (entity 1)] empty
    = Ok sc
    /\ unique_live (m_animables sc).
Proof.
  eexists. split; [reflexivity|].
  apply (run_unique_live (env := bare)
           [Create (entity 1); Create (entity 2); Destroy (handle 1 0); Create (entity 1)]
           empty).
  - vm_compute. discriminate.
  - intros i j a b Ha. destruct i; discriminate.
  - simpl. split.
    { intros (i & a & Ha & _). destruct i; discriminate. }
    split.
    { intros (i & a & Ha & Hf & He). destruct i as [|[|i]]; try discriminate.
      injection Ha as <-. discriminate. }
    vm_compute. split; [|exact I].
    intros (i & a & Ha & Hf & He). destruct i as [|[|i]]; try discriminate.
    + injection Ha as <-. discriminate.
    + injection Ha as <-. discriminate.
  - reflexivity.
Defined.

(** C9 as the spec words it fails: the slot of entity 1 holds the valid
    binding it got at creation; the notification of another renderable of
    the entity replaces it. *)
Lemma onComponentCreated_replaces_valid_binding :
  exists a a',
    m_animables (createAnimable (env := rendered) (entity 1) empty).2 !! 0%nat = Some a
    /\ Component.isValid (m_renderable a) = true
    /\ m_animables (onComponentCreated (env := rendered) (renderable 1 7)
                      (createAnimable (env := rendered) (entity 1) empty).2) !! 0%nat
       = Some a'
    /\ m_renderable a' = renderable 1 7
    /\ m_renderable a' <> m_renderable a.
Proof.
  eexists _, _. split; [reflexivity|]. split; [reflexivity|].
  split; [reflexivity|]. split; [reflexivity|]. vm_compute. discriminate.
Qed.

Lemma onComponentCreated_attaches_witness :
  exists a a',
    m_animables (createAnimable (env := bare) (entity 1) empty).2 !! 0%nat = Some a
    /\ Component.isValid (m_renderable a) = false
    /\ m_animables (onComponentCreated (env := bare) (renderable 1 7)
                      (createAnimable (env := bare) (entity 1) empty).2) !! 0%nat
       = Some a'
    /\ m_renderable a' = renderable 1 7
    /\ Component.isValid (m_renderable a') = true.
Proof.
  destruct (onComponentCreated_attaches (env := bare) (renderable 1 7)
              (createAnimable (env := bare) (entity 1) empty).2) as [_ Hrenderable].
  destruct (Hrenderable eq_refl) as (_ & _ & H).
  apply (H empty).
  - vm_compute. discriminate.
  - reflexivity.
  - reflexivity.
  - reflexivity.
  - intros j b Hj. vm_compute in Hj. lia.
Defined.

End LifecycleRuns.

(** ** The frame update *)

Section FrameUpdate.
Context {float : Type} {arith : FloatArith float}.
Implicit Types (a : Animable float) (tbl : list (Animable float)) (sc : Scene float).

Lemma wrap_fuel_mono fuel fuel' (t l r : float) :
  wrap fuel t l = Ok r -> (fuel <= fuel')%nat -> wrap fuel' t l = Ok r.
Proof.
  revert fuel' t. induction fuel as [|fuel IH]; intros fuel' t H Hle; [discriminate|].
  destruct fuel' as [|fuel']; [lia|]. simpl in *.
  destruct (f_gt t l); [|exact H].
  apply IH; [exact H | lia].
Qed.

Lemma update_animable_fuel_mono fuel fuel' dt a r :
  update_animable fuel dt a = Ok r -> (fuel <= fuel')%nat ->
  update_animable fuel' dt a = Ok r.
Proof.
  unfold update_animable. intros H Hle.
  destruct (m_animation a) as [anim|]; [|exact H].
  destruct (negb (m_is_free a) && Animation.isReady anim); [|exact H].
  destruct (Component.scene (m_renderable a)); [|exact H].
  destruct (negb (m_manual a)); [|exact H].
  destruct (wrap fuel _ _) as [t|e] eqn:Hw; [|discriminate].
  rewrite (wrap_fuel_mono _ _ _ _ _ Hw Hle). exact H.
Qed.

Lemma update_loop_fuel_mono fuel fuel' dt tbl r :
  update_loop fuel dt tbl = Ok r -> (fuel <= fuel')%nat ->
  update_loop fuel' dt tbl = Ok r.
Proof.
  revert r. induction tbl as [|a tbl IH]; intros r H Hle; [exact H|].
  cbn [update_loop] in *.
  destruct (update_animable fuel dt a) as [[a' ev]|e] eqn:Ha; [|discriminate].
  rewrite (update_animable_fuel_mono _ _ _ _ _ Ha Hle).
  cbn in *.
  destruct (update_loop fuel dt tbl) as [[tbl' evs]|e] eqn:Ht; [|discriminate].
  rewrite (IH _ eq_refl Hle). exact H.
Qed.

Lemma update_fuel_mono fuel fuel' dt sc sc' :
  update fuel dt sc = Ok sc' -> (fuel <= fuel')%nat -> update fuel' dt sc = Ok sc'.
Proof.
  unfold update. intros H Hle.
  destruct (update_loop fuel dt (m_animables sc)) as [[tbl ev]|e] eqn:Ht; [|discriminate].
  rewrite (update_loop_fuel_mono _ _ _ _ _ Ht Hle). exact H.
Qed.

Lemma updates_fuel_mono fuel fuel' deltas sc sc' :
  updates fuel deltas sc = Ok sc' -> (fuel <= fuel')%nat ->
  updates fuel' deltas sc = Ok sc'.
Proof.
  revert sc. induction deltas as [|dt deltas IH]; intros sc H Hle; [exact H|].
  cbn [updates] in *.
  destruct (update fuel dt sc) as [sc1|e] eqn:H1; [|discriminate].
  rewrite (update_fuel_mono _ _ _ _ _ H1 Hle). cbn in *.
  apply IH; assumption.
Qed.

(** [update] handles the slots one by one, each on its own. *)
Lemma update_loop_lookup fuel dt tbl tbl' evs i a :
  update_loop fuel dt tbl = Ok (tbl', evs) ->
  tbl !! i = Some a ->
  exists a' ev, update_animable fuel dt a = Ok (a', ev) /\ tbl' !! i = Some a'.
Proof.
  revert tbl' evs i. induction tbl as [|x tbl IH]; intros tbl' evs i H Hi; [discriminate|].
  cbn [update_loop] in H.
  destruct (update_animable fuel dt x) as [[x' ev]|e] eqn:Hx; [|discriminate].
  cbn in H.
  destruct (update_loop fuel dt tbl) as [[tbl1 evs1]|e] eqn:Ht; [|discriminate].
  cbn in H. injection H as <- <-.
  destruct i as [|i].
  - injection Hi as <-. eauto.
  - apply (IH _ _ i eq_refl Hi).
Qed.

(** [update] changes nothing of a slot but its time. *)
Lemma update_animable_fields fuel (dt : float) a a' ev :
  update_animable fuel dt a = Ok (a', ev) ->
  m_manual a' = m_manual a /\ m_is_free a' = m_is_free a
  /\ m_renderable a' = m_renderable a /\ m_animation a' = m_animation a
  /\ m_entity a' = m_entity a.
Proof.
  unfold update_animable. intros H.
  destruct (m_animation a) as [anim|] eqn:Hc; [|injection H as <- <-; auto].
  destruct (negb (m_is_free a) && Animation.isReady anim); [|injection H as <- <-; auto].
  destruct (Component.scene (m_renderable a)); [|discriminate].
  destruct (negb (m_manual a)); [|injection H as <- <-; auto].
  destruct (wrap _ _ _); [|discriminate].
  injection H as <- <-. simpl. auto.
Qed.

End FrameUpdate.

(** ** Remainders of rational numbers *)

Section Remainders.
Import Exact.
#[local] Open Scope Q_scope.



End Remainders.

(** ** The frame update on concrete scenes *)

Section FrameUpdateRuns.
Import Exact.
#[local] Open Scope Q_scope.


(** The scenario of the spec on binary32 numbers: three frames of 1.2 s on a
    clip of 2 s leave the time at 1.6000001 s (0x3FCCCCCE), still
    advancing. *)
Example walk_three_frames :
  exists sc' a',
    updates 2 [Sample.one_point_two; Sample.one_point_two; Sample.one_point_two]
      Sample.walking = Ok sc'
    /\ m_animables sc' !! 0%nat = Some a'
    /\ Binary32.to_bits (m_time a') = 1070386382%Z
    /\ auto_advance a' = true.
Proof. eexists _, _. repeat split; reflexivity. Qed.

End FrameUpdateRuns.

(** ** Persistence *)

Section Blob.

Lemma Z_of_byte_of_Z z : Z_of_byte (byte_of_Z z) = z mod 256.
Proof.
  unfold Z_of_byte, byte_of_Z.
  assert (Hr : 0 <= z mod 256 < 256) by (apply Z.mod_pos_bound; lia).
  destruct (Byte.of_N (Z.to_N (z mod 256))) as [b|] eqn:E.
  - apply Byte.to_of_N in E. rewrite E. lia.
  - apply Byte.of_N_None_iff in E. lia.
Qed.

Lemma read_write_uint32 z rest :
  0 <= z < 2 ^ 32 -> read_uint32 (write_uint32 z ++ rest) = Ok (z, rest).
Proof.
  intros Hz. unfold write_uint32, read_uint32. cbn [app].
  rewrite !Z_of_byte_of_Z. do 2 f_equal.
  change (2 ^ 32) with 4294967296 in Hz.
  Z.to_euclidean_division_equations. lia.
Qed.

Lemma read_write_int32 z rest :
  - 2 ^ 31 <= z < 2 ^ 31 -> read_int32 (write_int32 z ++ rest) = Ok (z, rest).
Proof.
  intros Hz. unfold read_int32, write_int32.
  rewrite read_write_uint32 by (apply Z.mod_pos_bound; lia). cbn.
  do 2 f_equal.
  change (2 ^ 31) with 2147483648 in *. change (2 ^ 32) with 4294967296.
  destruct (Z.ltb_spec (z mod 4294967296) 2147483648);
    Z.to_euclidean_division_equations; lia.
Qed.

Lemma read_write_bool (b : bool) rest :
  read_bool (write_bool b ++ rest) = Ok (b, rest).
Proof. destruct b; reflexivity. Qed.

Lemma read_write_float {float} {bits : FloatBits float} (f : float) rest :
  0 <= f_to_bits f < 2 ^ 32 -> f_of_bits (f_to_bits f) = f ->
  read_float (write_float f ++ rest) = Ok (f, rest).
Proof.
  intros Hr Hf. unfold read_float, write_float.
  rewrite read_write_uint32 by exact Hr. cbn. rewrite Hf. reflexivity.
Qed.

Lemma c_str_terminated bs rest : c_str (c_str bs ++ x00 :: rest) = c_str bs.
Proof.
  induction bs as [|b bs IH]; [reflexivity|].
  cbn [c_str]. destruct (Byte.eqb b x00) eqn:E; [reflexivity|].
  cbn [app c_str]. rewrite E, IH. reflexivity.
Qed.

Lemma readString_writeString max_size s rest :
  c_string s ->
  Z.of_nat (String.length s) + 1 <= max_size ->
  Z.of_nat (String.length s) + 1 < 2 ^ 31 ->
  readString max_size (writeString s ++ rest) = Ok (s, rest).
Proof.
  intros Hc Hmax Hint. unfold c_string in Hc. unfold readString, writeString.
  rewrite Hc.
  assert (Hlen : length (list_byte_of_string s) = String.length s).
  { clear. unfold list_byte_of_string. rewrite length_map.
    induction s as [|c s IH]; [reflexivity|]. cbn. rewrite IH. reflexivity. }
  rewrite Hlen, <- app_assoc, read_write_int32 by lia. cbn [mbind result_bind bind].
  destruct (Z.leb_spec (Z.of_nat (String.length s) + 1) 0); [lia|].
  destruct (Z.ltb_spec max_size (Z.of_nat (String.length s) + 1)); [lia|].
  cbn [orb].
  replace (Z.to_nat (Z.of_nat (String.length s) + 1)) with (S (String.length s)) by lia.
  destruct (Nat.ltb_spec (length ((list_byte_of_string s ++ [x00]) ++ rest))
              (S (String.length s))) as [Hshort|_].
  { rewrite !length_app, Hlen in Hshort. cbn in Hshort. lia. }
  assert (Hsplit : S (String.length s) = length (list_byte_of_string s ++ [x00])).
  { rewrite length_app, Hlen. cbn. lia. }
  rewrite Hsplit, take_app_length, drop_app_length.
  pose proof (c_str_terminated (list_byte_of_string s) []) as Hstr.
  rewrite Hc in Hstr. rewrite Hstr.
  rewrite string_of_list_byte_of_string. reflexivity.
Qed.

End Blob.

Section Persistence.
Context {float : Type} {bits : FloatBits float} {env : Collaborators float}.
Implicit Types (a old : Animable float) (tbl slots : list (Animable float)).
Implicit Types (sc : Scene float) (rest : blob).

Lemma deserialize_serialize_animable i old a rest :
  storable a ->
  exists a' ev,
    deserialize_animable i old (serialize_animable a ++ rest) = Ok (a', ev, rest)
    /\ restored a a'.
Proof.
  intros (Hidx & Hbits & Hfloat & Hstr & Hmax & Hint & Hload).
  unfold deserialize_animable, serialize_animable.
  rewrite <- !app_assoc.
  rewrite read_write_bool. cbn [mbind result_bind bind].
  rewrite read_write_int32 by exact Hidx. cbn [mbind result_bind bind].
  rewrite read_write_float by assumption. cbn [mbind result_bind bind].
  rewrite read_write_bool. cbn [mbind result_bind bind].
  rewrite readString_writeString by assumption. cbn [mbind result_bind bind].
  eexists _, _. split; [reflexivity|].
  unfold restored. cbn [m_manual m_time m_is_free m_entity].
  repeat split.
  unfold preview_path at 1. cbn [m_animation].
  destruct (preview_path a) as [|c p] eqn:Hp; [reflexivity|].
  destruct Hload as (anim & -> & Hpath); [discriminate|]. exact Hpath.
Qed.

Lemma deserialize_loop_serialize tbl :
  forall i slots rest,
    length slots = length tbl ->
    Forall storable tbl ->
    exists tbl' evs,
      deserialize_loop i slots (flat_map serialize_animable tbl ++ rest)
      = Ok (tbl', evs, rest)
      /\ Forall2 restored tbl tbl'.
Proof.
  induction tbl as [|a tbl IH]; intros i slots rest Hlen Hall.
  - destruct slots; [|discriminate]. exists [], []. split; [reflexivity | constructor].
  - destruct slots as [|old slots]; [discriminate|].
    apply Forall_cons in Hall as [Ha Hall].
    cbn [flat_map deserialize_loop]. rewrite <- app_assoc.
    destruct (deserialize_serialize_animable i old a
                (flat_map serialize_animable tbl ++ rest) Ha) as (a' & ev & -> & Hr).
    cbn [mbind result_bind bind].
    destruct (IH (S i) slots rest ltac:(cbn in Hlen; lia) Hall) as (tbl' & evs & -> & Hrs).
    cbn [mbind result_bind bind].
    eexists _, _. split; [reflexivity|]. constructor; assumption.
Qed.

(** C2, as the code has it.  Saving an array of slots the blob can hold and
    loading it again, into any scene, consumes exactly what was written and
    gives an array of the same length in which every slot, free or live, has
    the mode, the time, the free flag and the clip path of the slot saved; a
    free slot that still holds a clip keeps its path.  The entity index
    comes back for a slot whose binding is on its own entity.  Per slot the
    bytes are the manual flag (the negation of the advance mode), a 32-bit
    entity index, the time, the free flag and the path, in this order. *)
Theorem deserialize_serialize sc sc0 rest :
  Z.of_nat (length (m_animables sc)) < 2 ^ 31 ->
  Forall storable (m_animables sc) ->
  exists sc',
    deserialize (serialize sc ++ rest) sc0 = Ok (sc', rest)
    /\ length (m_animables sc') = length (m_animables sc)
    /\ (forall i a,
          m_animables sc !! i = Some a ->
          exists a',
            m_animables sc' !! i = Some a'
            /\ auto_advance a' = auto_advance a
            /\ m_time a' = m_time a
            /\ m_is_free a' = m_is_free a
            /\ preview_path a' = preview_path a
            /\ (Component.entity (m_renderable a) = m_entity a ->
                Entity.index (m_entity a') = Entity.index (m_entity a)))
    /\ serialize sc
       = write_int32 (Z.of_nat (length (m_animables sc)))
         ++ flat_map serialize_animable (m_animables sc)
    /\ (forall a,
          Component.entity (m_renderable a) = m_entity a ->
          serialize_animable a
          = write_bool (negb (auto_advance a))
            ++ write_int32 (Entity.index (m_entity a))
            ++ write_float (m_time a)
            ++ write_bool (m_is_free a)
            ++ writeString (preview_path a)).
Proof.
  intros Hcount Hall. unfold deserialize, serialize.
  rewrite <- app_assoc, read_write_int32 by lia. cbn [mbind result_bind bind].
  destruct (Z.ltb_spec (Z.of_nat (length (m_animables sc))) 0); [lia|].
  rewrite Nat2Z.id.
  destruct (deserialize_loop_serialize (m_animables sc) 0%nat
              (resize (length (m_animables sc)) blank (m_animables sc0)) rest
              ltac:(apply length_resize) Hall) as (tbl' & evs & -> & Hrs).
  cbn [mbind result_bind bind].
  eexists. split; [reflexivity|]. cbn [m_animables].
  split; [symmetry; eapply Forall2_length, Hrs|].
  split; [|split; [reflexivity|]].
  - intros i a Hi.
    destruct (Forall2_lookup_l _ _ _ _ _ Hrs Hi) as (a' & Hi' & Hm & Ht & Hf & Hp & He).
    exists a'. split; [exact Hi'|]. unfold auto_advance.
    repeat split; try congruence.
    intros Hown. rewrite He, Hown. reflexivity.
  - intros a Hown. unfold serialize_animable, auto_advance.
    rewrite negb_involutive, Hown. reflexivity.
Qed.

End Persistence.

(** ** Persistence on concrete scenes *)

Section PersistenceRuns.
Import Sample.

(** C2 as the spec words it fails, on a scene the code reaches.  The free
    slot still holds its clip and comes back with the path of that clip, not
    with the empty path; the live slot of entity 2 has no binding and comes
    back with entity index -1; and the first byte of a slot is its manual
    flag, 0 for a slot that advances. *)
Lemma deserialize_serialize_differs :
  exists sc sc' vacated vacated' owned owned',
    saved = Ok sc
    /\ deserialize (env := bare) (serialize sc) empty = Ok (sc', [])
    /\ m_animables sc !! 0%nat = Some vacated
    /\ m_animables sc' !! 0%nat = Some vacated'
    /\ m_is_free vacated = true
    /\ m_is_free vacated' = true
    /\ preview_path vacated' = "walk.ani"%string
    /\ m_animables sc !! 1%nat = Some owned
    /\ m_animables sc' !! 1%nat = Some owned'
    /\ Entity.index (m_entity owned) = 2
    /\ Entity.index (m_entity owned') = -1
    /\ auto_advance vacated = true
    /\ take 1 (serialize_animable vacated) = write_bool false.
Proof.
  eexists _, _, _, _, _, _. split; [reflexivity|]. split; [reflexivity|].
  repeat split.
Qed.

Lemma deserialize_serialize_witness :
  exists sc',
    deserialize (env := rendered) (serialize playing ++ [x2a]) empty = Ok (sc', [x2a])
    /\ length (m_animables sc') = 2%nat
    /\ (forall i a, m_animables playing !! i = Some a ->
          exists a', m_animables sc' !! i = Some a'
                     /\ m_time a' = m_time a
                     /\ preview_path a' = preview_path a).
Proof.
  destruct (deserialize_serialize (env := rendered) playing empty [x2a])
    as (sc' & H1 & H2 & H3 & _).
  - reflexivity.
  - constructor; [|constructor; [|constructor]].
    + unfold storable. repeat split; try (vm_compute; congruence).
      intros _. exists (clip "walk.ani"). split; reflexivity.
    + unfold storable. repeat split; vm_compute; congruence.
  - exists sc'. split; [exact H1|]. split; [exact H2|].
    intros i a Hi. destruct (H3 i a Hi) as (a' & Ha' & _ & Ht & _ & Hp & _).
    exists a'. auto.
Defined.

End PersistenceRuns.

(** * Further properties of the code *)

(** ** Slots: lookup, creation, destruction *)

Section Slots.
Context {float : Type} {arith : FloatArith float} {env : Collaborators float}.
Implicit Types (sc : Scene float) (a : Animable float) (tbl : list (Animable float)).
Implicit Types (entity : Entity.t) (cmp : Component.t).

(** X1.  [getAnimable] returns the handle of the first slot of the array
    whose entity is the one asked for, whether that slot is free or live,
    and the invalid handle exactly when no slot has that entity. *)
Theorem getAnimable_first sc entity :
  (exists i a,
      m_animables sc !! i = Some a /\ m_entity a = entity
      /\ (forall j b, (j < i)%nat -> m_animables sc !! j = Some b -> m_entity b <> entity)
      /\ getAnimable sc entity = Component.mk entity ANIMABLE_HASH (Some this) (Z.of_nat i)
      /\ Component.isValid (getAnimable sc entity) = true)
  \/ ((forall j b, m_animables sc !! j = Some b -> m_entity b <> entity)
      /\ getAnimable sc entity = Component.INVALID
      /\ Component.isValid (getAnimable sc entity) = false).
Proof.
  unfold getAnimable.
  destruct (list_find _ (m_animables sc)) as [[i a]|] eqn:E.
  - left. apply list_find_Some in E as (Hi & He & Hfirst).
    exists i, a. repeat split; try assumption.
    + intros j b Hlt Hb. eapply Hfirst; eassumption.
    + unfold Component.isValid. simpl. apply Z.leb_le. lia.
  - right. apply list_find_None in E. rewrite Forall_lookup in E.
    repeat split. intros j b Hb. eapply E, Hb.
Qed.

(** X2.  After [createAnimable] for an entity that no slot before the one
    picked belongs to, [getAnimable] for that entity returns the handle of
    the slot just filled. *)
Theorem getAnimable_createAnimable entity sc :
  ANIMABLE_HASH <> RENDERABLE_HASH ->
  (forall j b, (j < allocated_index (m_animables sc))%nat ->
               m_animables sc !! j = Some b -> m_entity b <> entity) ->
  getAnimable (createAnimable entity sc).2 entity
  = Component.mk entity ANIMABLE_HASH (Some this)
      (Z.of_nat (allocated_index (m_animables sc))).
Proof.
  intros Hhash Hbefore. unfold getAnimable.
  rewrite createAnimable_table by exact Hhash.
  assert (Hfind : list_find (fun a => m_entity a = entity)
                    (allocate entity (m_animables sc))
                  = Some (allocated_index (m_animables sc), new_animable entity)).
  { apply list_find_Some. split; [apply allocate_lookup|]. split; [reflexivity|].
    intros j b Hb Hlt.
    apply allocate_lookup_inv in Hb as [[-> _]|[_ Hb]]; [lia|].
    eapply Hbefore; eassumption. }
  rewrite Hfind. reflexivity.
Qed.

Lemma allocated_index_full tbl :
  allocated_index tbl = length tbl <-> Forall (fun a => m_is_free a = false) tbl.
Proof.
  unfold allocated_index.
  destruct (list_find _ tbl) as [[i x]|] eqn:E.
  - apply list_find_Some in E as (Hi & Hf & _). split.
    + intros ->. apply lookup_lt_Some in Hi. lia.
    + intros Hall. rewrite Forall_lookup in Hall.
      specialize (Hall _ _ Hi). congruence.
  - apply list_find_None in E. split; [|reflexivity]. intros _.
    eapply Forall_impl; [exact E|]. intros a Ha. cbn in Ha.
    destruct (m_is_free a); [contradiction | reflexivity].
Qed.

(** X3.  [createAnimable] fills the first free slot and leaves the length of
    the array as it is, or, exactly when no slot is free, appends one slot;
    it touches no other slot, and it announces to the universe the handle
    it returns: one [addComponent] and one component-created notification. *)
Theorem createAnimable_shape entity sc :
  ANIMABLE_HASH <> RENDERABLE_HASH ->
  length (m_animables (createAnimable entity sc).2)
  = (if decide (allocated_index (m_animables sc) = length (m_animables sc))
     then S (length (m_animables sc)) else length (m_animables sc))
  /\ (allocated_index (m_animables sc) = length (m_animables sc)
      <-> Forall (fun a => m_is_free a = false) (m_animables sc))
  /\ (forall j, j <> allocated_index (m_animables sc) ->
        m_animables (createAnimable entity sc).2 !! j = m_animables sc !! j)
  /\ trace (createAnimable entity sc).2
     = trace sc ++ [AddComponent (createAnimable entity sc).1;
                    ComponentCreated (createAnimable entity sc).1].
Proof.
  intros Hhash. rewrite createAnimable_table by exact Hhash.
  split; [apply allocate_length|]. split; [apply allocated_index_full|]. split.
  - intros j Hj. destruct (decide (j < length (m_animables sc))%nat) as [Hlt|Hge].
    + apply allocate_lookup_ne; assumption.
    + rewrite (lookup_ge_None_2 (m_animables sc)) by lia.
      apply lookup_ge_None_2. rewrite allocate_length.
      pose proof (allocated_index_le (m_animables sc)).
      destruct (decide _); lia.
  - unfold createAnimable. cbn [fst snd].
    rewrite onComponentCreated_other by exact Hhash. reflexivity.
Qed.

(** X4.  The handle [createAnimable] returns carries the index of the slot
    it filled exactly when that slot is the last of the array: when a slot
    was appended, or when the only free slot was the last one. *)
Theorem createAnimable_handle_right entity sc :
  Component.index (createAnimable entity sc).1
  = Z.of_nat (allocated_index (m_animables sc))
  <-> (allocated_index (m_animables sc) = length (m_animables sc)
       \/ S (allocated_index (m_animables sc)) = length (m_animables sc)).
Proof.
  rewrite createAnimable_handle. cbn [Component.index].
  rewrite allocate_length.
  pose proof (allocated_index_le (m_animables sc)).
  destruct (decide _); lia.
Qed.

(** X5.  [createComponent] returns a valid handle exactly for the component
    types [ownComponentType] accepts. *)
Theorem createComponent_valid_iff_owned type entity sc :
  Component.isValid (createComponent type entity sc).1 = ownComponentType type.
Proof.
  unfold createComponent, ownComponentType.
  destruct (type =? ANIMABLE_HASH); [|reflexivity].
  rewrite createAnimable_handle. unfold Component.isValid. cbn [Component.index].
  apply Z.leb_le. rewrite allocate_length.
  pose proof (allocated_index_le (m_animables sc)).
  destruct (decide _); lia.
Qed.

(** X6.  [destroyComponent] with a handle inside the array only sets the
    free flag of its slot: the slot keeps its entity, clip, binding, time and
    mode, the array is not compacted, the other slots stay where they are,
    and the universe is told once. *)
Theorem destroyComponent_marks_free component sc a :
  at_index (m_animables sc) (Component.index component) = Ok a ->
  exists sc' a',
    destroyComponent component sc = Ok sc'
    /\ at_index (m_animables sc') (Component.index component) = Ok a'
    /\ m_is_free a' = true
    /\ m_entity a' = m_entity a /\ m_animation a' = m_animation a
    /\ m_renderable a' = m_renderable a /\ m_time a' = m_time a
    /\ m_manual a' = m_manual a
    /\ length (m_animables sc') = length (m_animables sc)
    /\ (forall j, j <> Z.to_nat (Component.index component) ->
          m_animables sc' !! j = m_animables sc !! j)
    /\ trace sc' = trace sc ++ [DestroyComponent component].
Proof.
  intros H. unfold destroyComponent.
  rewrite (assign_at_Ok _ _ _ _ H). cbn [mbind result_bind bind].
  apply at_index_lookup in H as [Hi Ha].
  eexists _, _. split; [reflexivity|]. cbn [m_animables trace].
  split.
  { apply at_index_lookup. split; [exact Hi|].
    apply list_lookup_insert_eq. eapply lookup_lt_Some, Ha. }
  cbn. repeat split; try reflexivity.
  - apply length_insert.
  - intros j Hj. apply list_lookup_insert_ne. congruence.
Qed.

(** X7.  A slot that is destroyed while no slot before it is free is the one
    the next [createAnimable] fills, and the array does not grow. *)
Theorem createAnimable_after_destroy component entity sc sc1 :
  ANIMABLE_HASH <> RENDERABLE_HASH ->
  destroyComponent component sc = Ok sc1 ->
  (forall j b, (j < Z.to_nat (Component.index component))%nat ->
               m_animables sc !! j = Some b -> m_is_free b = false) ->
  allocated_index (m_animables sc1) = Z.to_nat (Component.index component)
  /\ length (m_animables (createAnimable entity sc1).2) = length (m_animables sc)
  /\ exists a,
       m_animables (createAnimable entity sc1).2 !! Z.to_nat (Component.index component)
       = Some a
       /\ m_entity a = entity /\ m_is_free a = false.
Proof.
  intros Hhash Hd Hbefore. unfold destroyComponent, assign_at in Hd.
  destruct (at_index (m_animables sc) (Component.index component)) as [a|e] eqn:Hat;
    [|discriminate].
  cbn in Hd. injection Hd as <-. cbn [m_animables].
  apply at_index_lookup in Hat as [Hi Ha].
  set (k := Z.to_nat (Component.index component)) in *.
  assert (Hk : (k < length (m_animables sc))%nat) by (eapply lookup_lt_Some, Ha).
  set (tbl1 := <[k := _]> (m_animables sc)).
  assert (Hidx : allocated_index tbl1 = k).
  { unfold allocated_index.
    assert (Hfind : list_find (fun a => m_is_free a = true) tbl1
                    = Some (k, {| m_manual := m_manual a; m_is_free := true;
                                  m_renderable := m_renderable a; m_time := m_time a;
                                  m_animation := m_animation a;
                                  m_entity := m_entity a |})).
    { apply list_find_Some. split; [apply list_lookup_insert_eq; exact Hk|].
      split; [reflexivity|]. intros j b Hb Hlt.
      unfold tbl1 in Hb. rewrite list_lookup_insert_ne in Hb by lia.
      rewrite (Hbefore j b Hlt Hb). discriminate. }
    rewrite Hfind. reflexivity. }
  split; [exact Hidx|].
  rewrite createAnimable_table by exact Hhash. cbn [m_animables]. fold tbl1.
  split.
  - rewrite allocate_length, Hidx. unfold tbl1. rewrite length_insert.
    destruct (decide _); [lia | reflexivity].
  - exists (new_animable entity). rewrite <- Hidx.
    split; [apply allocate_lookup|]. split; reflexivity.
Qed.

Lemma live_count_full tbl :
  Forall (fun a => m_is_free a = false) tbl -> live_count tbl = length tbl.
Proof.
  unfold live_count. induction 1 as [|a tbl Ha _ IH]; [reflexivity|].
  rewrite filter_cons_True by exact Ha. cbn. rewrite IH. reflexivity.
Qed.

(** X8.  Free slots are reused before the array grows: over any sequence of
    creations and destructions in which a component is only created while
    fewer than [n] slots are live, an array of at most [n] slots never
    grows beyond [n] slots. *)
Theorem run_length_bounded n ops sc sc' :
  ANIMABLE_HASH <> RENDERABLE_HASH ->
  (length (m_animables sc) <= n)%nat ->
  creates_below n ops sc ->
  run ops sc = Ok sc' ->
  (length (m_animables sc') <= n)%nat.
Proof.
  intros Hhash. revert sc.
  induction ops as [|[entity|component] ops IH]; intros sc Hlen Hroom Hrun;
    cbn [run creates_below] in *.
  - injection Hrun as <-. exact Hlen.
  - destruct Hroom as [Hlive Hlater].
    apply (IH (createAnimable entity sc).2); [|exact Hlater|exact Hrun].
    rewrite createAnimable_table, allocate_length by exact Hhash.
    destruct (decide _) as [Hfull|_]; [|exact Hlen].
    apply allocated_index_full, live_count_full in Hfull. lia.
  - unfold destroyComponent in *.
    destruct (at_index (m_animables sc) (Component.index component)) as [a|e] eqn:Hat.
    + rewrite (assign_at_Ok _ _ _ _ Hat) in Hroom, Hrun.
      eapply IH; [|exact Hroom|exact Hrun].
      cbn [m_animables]. rewrite length_insert. exact Hlen.
    + unfold assign_at in Hrun. rewrite Hat in Hrun. discriminate.
Qed.

End Slots.

(** ** The frame update, in every arithmetic *)

Section Frame.
Context {float : Type} {arith : FloatArith float}.
Implicit Types (a : Animable float) (tbl : list (Animable float)) (sc : Scene float).

Lemma update_animable_idle fuel dt a r :
  idle a -> update_animable fuel dt a = Ok r -> r.1 = a.
Proof.
  unfold idle, update_animable. intros Hidle H.
  destruct (m_animation a) as [anim|]; [|injection H as <-; reflexivity].
  destruct (m_is_free a) eqn:Hf; cbn [negb andb] in H; [injection H as <-; reflexivity|].
  destruct (Animation.isReady anim) eqn:Hr; [|injection H as <-; reflexivity].
  destruct (Component.scene (m_renderable a)); [|discriminate].
  destruct (m_manual a) eqn:Hm; cbn [negb] in H; [injection H as <-; reflexivity|].
  destruct Hidle as [?|[?|?]]; discriminate.
Qed.

Lemma update_lookup fuel dt sc sc' i a :
  update fuel dt sc = Ok sc' -> m_animables sc !! i = Some a ->
  exists a' ev, update_animable fuel dt a = Ok (a', ev) /\ m_animables sc' !! i = Some a'.
Proof.
  unfold update. intros H Hi.
  destruct (update_loop fuel dt (m_animables sc)) as [[tbl evs]|e] eqn:Hl; [|discriminate].
  cbn in H. injection H as <-. cbn [m_animables].
  eapply update_loop_lookup; eassumption.
Qed.

Lemma update_idle_lookup fuel dt sc sc' i a :
  update fuel dt sc = Ok sc' -> m_animables sc !! i = Some a -> idle a ->
  m_animables sc' !! i = Some a.
Proof.
  intros H Hi Hidle.
  destruct (update_lookup _ _ _ _ _ _ H Hi) as (a1 & ev & Ha1 & Hi1).
  apply (update_animable_idle _ _ _ _ Hidle) in Ha1. cbn in Ha1. subst a1. exact Hi1.
Qed.

(** X9.  A slot that is manual, or free, or without a clip, or whose clip is
    not loaded, comes out of any number of successive updates exactly as it
    went in: its time does not move. *)
Theorem updates_idle_unchanged fuel deltas sc sc' i a :
  m_animables sc !! i = Some a -> idle a ->
  updates fuel deltas sc = Ok sc' ->
  m_animables sc' !! i = Some a.
Proof.
  revert sc. induction deltas as [|dt deltas IH]; intros sc Hi Hidle H; cbn [updates] in H.
  - injection H as <-. exact Hi.
  - destruct (update fuel dt sc) as [sc1|e] eqn:H1; [|discriminate].
    cbn in H. eapply IH; [|exact Hidle|exact H].
    eapply update_idle_lookup; eassumption.
Qed.

Lemma setManual_lookup cmp (b : bool) sc a :
  at_index (m_animables sc) (Component.index cmp) = Ok a ->
  exists sc',
    setManual cmp b sc = Ok sc'
    /\ m_animables sc' !! Z.to_nat (Component.index cmp)
       = Some {| m_manual := b; m_is_free := m_is_free a;
                 m_renderable := m_renderable a; m_time := m_time a;
                 m_animation := m_animation a; m_entity := m_entity a |}.
Proof.
  intros H. unfold setManual. rewrite (assign_at_Ok _ _ _ _ H).
  apply at_index_lookup in H as [_ Ha].
  eexists. split; [reflexivity|]. cbn [m_animables].
  apply list_lookup_insert_eq. eapply lookup_lt_Some, Ha.
Qed.

(** X10.  After [setManual (cmp, true)], any number of updates that return
    leave the time of the slot where it was, and [isManual] still answers
    true. *)
Theorem setManual_freezes_time cmp fuel deltas sc sc1 sc2 :
  setManual cmp true sc = Ok sc1 ->
  updates fuel deltas sc1 = Ok sc2 ->
  exists a a2,
    at_index (m_animables sc) (Component.index cmp) = Ok a
    /\ at_index (m_animables sc2) (Component.index cmp) = Ok a2
    /\ m_time a2 = m_time a
    /\ isManual cmp sc2 = Ok true.
Proof.
  intros Hset Hrun.
  destruct (at_index (m_animables sc) (Component.index cmp)) as [a|e] eqn:Hat.
  2: { unfold setManual, assign_at in Hset. rewrite Hat in Hset. discriminate. }
  destruct (setManual_lookup cmp true sc a Hat) as (sc1' & Hset' & Hi1).
  rewrite Hset in Hset'. injection Hset' as <-.
  assert (Hi2 : m_animables sc2 !! Z.to_nat (Component.index cmp)
                = Some {| m_manual := true; m_is_free := m_is_free a;
                          m_renderable := m_renderable a; m_time := m_time a;
                          m_animation := m_animation a; m_entity := m_entity a |}).
  { clear Hset Hat. revert sc1 Hi1 Hrun.
    induction deltas as [|dt deltas IH]; intros sc1 Hi1 Hrun; cbn [updates] in Hrun.
    - injection Hrun as <-. exact Hi1.
    - destruct (update fuel dt sc1) as [sc'|e] eqn:Hup; [|discriminate].
      cbn in Hrun. apply (IH sc'); [|exact Hrun].
      eapply update_idle_lookup; [exact Hup | exact Hi1 | left; reflexivity]. }
  apply at_index_lookup in Hat as [H0 _].
  assert (Hat2 : at_index (m_animables sc2) (Component.index cmp) = Ok _)
    by (apply at_index_lookup; split; [exact H0 | exact Hi2]).
  eexists _, _. split; [reflexivity|]. split; [exact Hat2|]. split; [reflexivity|].
  unfold isManual. rewrite Hat2. reflexivity.
Qed.

Lemma update_loop_length fuel dt tbl tbl' evs :
  update_loop fuel dt tbl = Ok (tbl', evs) -> length tbl' = length tbl.
Proof.
  revert tbl' evs. induction tbl as [|x tbl IH]; intros tbl' evs H; cbn [update_loop] in H.
  - injection H as <- <-. reflexivity.
  - destruct (update_animable fuel dt x) as [[x' ev]|e]; [|discriminate]. cbn in H.
    destruct (update_loop fuel dt tbl) as [[tbl1 evs1]|e]; [|discriminate]. cbn in H.
    injection H as <- <-. cbn. f_equal. eapply IH. reflexivity.
Qed.

(** X11.  An update that returns neither creates nor destroys nor rebinds:
    the array keeps its length, and every slot keeps its entity, free flag,
    mode, clip and binding; only times change. *)
Theorem update_keeps_slots fuel dt sc sc' :
  update fuel dt sc = Ok sc' ->
  length (m_animables sc') = length (m_animables sc)
  /\ forall i a,
       m_animables sc !! i = Some a ->
       exists a',
         m_animables sc' !! i = Some a'
         /\ m_entity a' = m_entity a /\ m_is_free a' = m_is_free a
         /\ m_manual a' = m_manual a /\ m_animation a' = m_animation a
         /\ m_renderable a' = m_renderable a.
Proof.
  intros H. split.
  - unfold update in H.
    destruct (update_loop fuel dt (m_animables sc)) as [[tbl evs]|e] eqn:Hl; [|discriminate].
    cbn in H. injection H as <-. eapply update_loop_length, Hl.
  - intros i a Hi.
    destruct (update_lookup _ _ _ _ _ _ H Hi) as (a' & ev & Ha & Hi').
    apply update_animable_fields in Ha as (Hm & Hf & Hr & Hc & He).
    exists a'. repeat split; assumption.
Qed.

Lemma update_animable_pose_of fuel dt a r :
  update_animable fuel dt a = Ok r -> r.2 = pose_of a.
Proof.
  unfold update_animable, pose_of. intros H.
  destruct (m_animation a) as [anim|]; [|injection H as <-; reflexivity].
  destruct (negb (m_is_free a) && Animation.isReady anim); [|injection H as <-; reflexivity].
  destruct (Component.scene (m_renderable a)); [|discriminate].
  destruct (negb (m_manual a)); [|injection H as <-; reflexivity].
  destruct (wrap _ _ _); [|discriminate]. injection H as <-. reflexivity.
Qed.

Lemma update_loop_poses fuel dt tbl tbl' evs :
  update_loop fuel dt tbl = Ok (tbl', evs) -> evs = flat_map pose_of tbl.
Proof.
  revert tbl' evs. induction tbl as [|x tbl IH]; intros tbl' evs H; cbn [update_loop] in H.
  - injection H as <- <-. reflexivity.
  - destruct (update_animable fuel dt x) as [[x' ev]|e] eqn:Hx; [|discriminate]. cbn in H.
    destruct (update_loop fuel dt tbl) as [[tbl1 evs1]|e] eqn:Ht; [|discriminate]. cbn in H.
    injection H as <- <-. cbn [flat_map].
    apply update_animable_pose_of in Hx. cbn in Hx. rewrite Hx, (IH _ _ eq_refl).
    reflexivity.
Qed.

(** X12.  An update that returns has called [getPose] once for every live
    slot with a loaded clip, manual or not, in the order of the array, at the
    time the slot had before the update and on its binding, and for no other
    slot; it has made no other call. *)
Theorem update_poses fuel dt sc sc' :
  update fuel dt sc = Ok sc' ->
  trace sc' = trace sc ++ flat_map pose_of (m_animables sc).
Proof.
  unfold update. intros H.
  destruct (update_loop fuel dt (m_animables sc)) as [[tbl evs]|e] eqn:Hl; [|discriminate].
  cbn in H. injection H as <-. cbn [trace].
  rewrite (update_loop_poses _ _ _ _ _ Hl). reflexivity.
Qed.

Lemma wrap_not_greater fuel (t l r : float) :
  wrap fuel t l = Ok r -> f_gt r l = false.
Proof.
  revert t. induction fuel as [|fuel IH]; intros t H; [discriminate|].
  cbn [wrap] in H. destruct (f_gt t l) eqn:Hgt; [eapply IH, H|].
  injection H as <-. exact Hgt.
Qed.

Lemma update_animable_advancing fuel dt a anim r :
  advancing a anim -> update_animable fuel dt a = Ok r ->
  wrap fuel (f_add (m_time a) dt) (Animation.getLength anim) = Ok (m_time r.1).
Proof.
  intros (Hc & Hf & Hr & Hm). unfold update_animable.
  rewrite Hc, Hf, Hr, Hm. cbn [negb andb].
  destruct (Component.scene (m_renderable a)); [|discriminate].
  destruct (wrap _ _ _) as [t|e]; [|discriminate].
  cbn. intros [= <-]. reflexivity.
Qed.

(** X13.  In every arithmetic, binary32 included, an update that returns
    leaves no advancing slot at a time greater than the length of its
    clip. *)
Theorem update_time_not_greater fuel dt sc sc' i a anim :
  update fuel dt sc = Ok sc' ->
  m_animables sc !! i = Some a -> advancing a anim ->
  exists a',
    m_animables sc' !! i = Some a'
    /\ f_gt (m_time a') (Animation.getLength anim) = false.
Proof.
  intros H Hi Hadv.
  destruct (update_lookup _ _ _ _ _ _ H Hi) as (a' & ev & Ha & Hi').
  exists a'. split; [exact Hi'|].
  apply (update_animable_advancing _ _ _ _ _ Hadv) in Ha. cbn in Ha.
  eapply wrap_not_greater, Ha.
Qed.

(** X22.  When the time of an advancing slot plus the duration of the frame
    is not greater than the length of its clip, the update stores that sum
    as it is: a time that a negative duration takes below 0 is not brought
    back into the clip. *)
Theorem update_no_wrap fuel dt sc sc' i a anim :
  update fuel dt sc = Ok sc' ->
  m_animables sc !! i = Some a -> advancing a anim ->
  f_gt (f_add (m_time a) dt) (Animation.getLength anim) = false ->
  exists a',
    m_animables sc' !! i = Some a' /\ m_time a' = f_add (m_time a) dt.
Proof.
  intros H Hi Hadv Hgt.
  destruct (update_lookup _ _ _ _ _ _ H Hi) as (a' & ev & Ha & Hi').
  exists a'. split; [exact Hi'|].
  apply (update_animable_advancing _ _ _ _ _ Hadv) in Ha. cbn in Ha.
  destruct fuel as [|fuel]; [discriminate|].
  cbn [wrap] in Ha. rewrite Hgt in Ha. congruence.
Qed.

Lemma wrap_absorbed fuel (t l : float) :
  f_gt t l = true -> f_sub t l = t -> wrap fuel t l = Err OutOfFuel.
Proof.
  intros Hgt Hsub. induction fuel as [|fuel IH]; [reflexivity|].
  cbn [wrap]. rewrite Hgt, Hsub. exact IH.
Qed.

(** X14.  The loop of [update] has no exit when the subtraction does not
    change the time: if the new time of an advancing slot is greater than
    the length of its clip and subtracting that length gives it back, as
    with a clip of length 0 or with a time too large for the length to
    count in binary32, then [update] returns for no amount of fuel. *)
Theorem update_never_returns dt sc i a anim :
  m_animables sc !! i = Some a -> advancing a anim ->
  f_gt (f_add (m_time a) dt) (Animation.getLength anim) = true ->
  f_sub (f_add (m_time a) dt) (Animation.getLength anim) = f_add (m_time a) dt ->
  forall fuel sc', update fuel dt sc <> Ok sc'.
Proof.
  intros Hi Hadv Hgt Hsub fuel sc' H.
  destruct (update_lookup _ _ _ _ _ _ H Hi) as (a' & ev & Ha & _).
  apply (update_animable_advancing _ _ _ _ _ Hadv) in Ha.
  rewrite (wrap_absorbed fuel _ _ Hgt Hsub) in Ha. discriminate.
Qed.

End Frame.

(** ** The time of an advancing slot, when nothing rounds *)

Section TimeValues.
Import Exact.
Context {float : Type} {arith : FloatArith float}.
Variable value : float -> option Q.
Implicit Types (a : Animable float) (sc : Scene float) (t l r : float).
#[local] Open Scope Q_scope.








End TimeValues.

(** ** The frame setters and the preview *)

Section Setters.
Context {float : Type} {arith : FloatArith float} {scale : FloatScale float}.
Context {env : Collaborators float}.
Implicit Types (sc : Scene float) (a : Animable float) (cmp : Component.t).

(** X17.  On a slot of the array without a clip, [setAnimationFrame] does
    nothing and [setFrame] dereferences the null clip; [setFrame] fails that
    way only there, and [setAnimationFrame] never fails on a slot of the
    array. *)
Theorem setFrame_needs_clip (getFPS : Animation.t float -> float) cmp frame sc a :
  at_index (m_animables sc) (Component.index cmp) = Ok a ->
  (setFrame getFPS cmp frame sc = Err NullPointer <-> m_animation a = None)
  /\ (exists sc', setAnimationFrame cmp frame sc = Ok sc'
                  /\ trace sc' = trace sc
                  /\ length (m_animables sc') = length (m_animables sc)
                  /\ (m_animation a = None -> sc' = sc)).
Proof.
  intros Hat. unfold setFrame, setAnimationFrame. rewrite Hat.
  cbn [mbind result_bind bind].
  destruct (m_animation a) as [anim|]; split.
  - split; discriminate.
  - eexists. split; [reflexivity|]. cbn [trace m_animables].
    split; [reflexivity|]. split; [apply length_insert | discriminate].
  - split; reflexivity.
  - exists sc. repeat split.
Qed.

(** X21.  After [setPreview] with a path on a slot of the array, [getPreview]
    returns the path of the clip the loader answered and [getFrameCount] its
    frame count, or the empty path and -1 when the loader answered no clip;
    the slot is no longer manual. *)
Theorem getPreview_setPreview cmp path sc a :
  at_index (m_animables sc) (Component.index cmp) = Ok a ->
  exists sc',
    setPreview cmp path sc = Ok sc'
    /\ getPreview cmp sc'
       = Ok (match loadAnimation path with
             | Some anim => Animation.getPath anim
             | None => EmptyString
             end)
    /\ getFrameCount cmp sc'
       = Ok (match loadAnimation path with
             | Some anim => Animation.getFrameCount anim
             | None => -1
             end)%Z
    /\ isManual cmp sc' = Ok false.
Proof.
  intros Hat. unfold setPreview, playAnimation.
  rewrite (assign_at_Ok _ _ _ _ Hat). cbn [mbind result_bind bind].
  eexists. split; [reflexivity|].
  apply at_index_lookup in Hat as [Hi Ha].
  assert (Hat' : forall tbl' x,
             tbl' = <[Z.to_nat (Component.index cmp) := x]> (m_animables sc) ->
             at_index tbl' (Component.index cmp) = Ok x).
  { intros tbl' x ->. apply at_index_lookup. split; [exact Hi|].
    apply list_lookup_insert_eq. eapply lookup_lt_Some, Ha. }
  unfold getPreview, getFrameCount, isManual. cbn [m_animables].
  rewrite (Hat' _ _ eq_refl). cbn [mbind result_bind bind].
  unfold preview_path. cbn [m_animation m_manual]. repeat split.
Qed.

End Setters.

(** ** Loading *)

Section Loading.
Context {float : Type} {bits : FloatBits float} {env : Collaborators float}.
Implicit Types (a old : Animable float) (tbl slots : list (Animable float)).
Implicit Types (sc : Scene float) (b rest : blob).

Lemma deserialize_animable_inv i old b a' ev rest :
  deserialize_animable i old b = Ok (a', ev, rest) ->
  ev = AddComponent (Component.mk (m_entity a') ANIMABLE_HASH (Some this) (Z.of_nat i))
  /\ Entity.universe (m_entity a') = Some m_universe
  /\ m_renderable a'
     = (if Component.isValid (getRenderable (m_entity a'))
        then getRenderable (m_entity a') else m_renderable old).
Proof.
  unfold deserialize_animable. intros H.
  destruct (read_bool b) as [[manual b1]|e]; [|discriminate]. cbn in H.
  destruct (read_int32 b1) as [[index b2]|e]; [|discriminate]. cbn in H.
  destruct (read_float b2) as [[time b3]|e]; [|discriminate]. cbn in H.
  destruct (read_bool b3) as [[is_free b4]|e]; [|discriminate]. cbn in H.
  destruct (readString LUMIX_MAX_PATH b4) as [[path b5]|e]; [|discriminate]. cbn in H.
  injection H as <- <- <-. cbn. repeat split.
Qed.

Lemma deserialize_loop_inv slots :
  forall i b tbl' evs rest,
    deserialize_loop i slots b = Ok (tbl', evs, rest) ->
    evs = imap (fun j a' => AddComponent (Component.mk (m_entity a') ANIMABLE_HASH
                                            (Some this) (Z.of_nat (i + j)))) tbl'
    /\ Forall2 (fun old a' =>
                  Entity.universe (m_entity a') = Some m_universe
                  /\ m_renderable a'
                     = (if Component.isValid (getRenderable (m_entity a'))
                        then getRenderable (m_entity a') else m_renderable old))
         slots tbl'.
Proof.
  induction slots as [|old slots IH]; intros i b tbl' evs rest H; cbn [deserialize_loop] in H.
  - injection H as <- <- <-. split; [reflexivity | constructor].
  - destruct (deserialize_animable i old b) as [[[a ev] b1]|e] eqn:Ha; [|discriminate].
    cbn in H.
    destruct (deserialize_loop (S i) slots b1) as [[[tbl1 evs1] b2]|e] eqn:Hl; [|discriminate].
    cbn in H. injection H as <- <- <-.
    apply deserialize_animable_inv in Ha as (-> & Hu & Hr).
    destruct (IH _ _ _ _ _ Hl) as (-> & Hall).
    split; [|constructor; [split; assumption | exact Hall]].
    rewrite imap_cons, Nat.add_0_r. f_equal.
    apply imap_ext. intros j x _. cbn. do 3 f_equal. lia.
Qed.

(** X19.  A load that succeeds sizes the array to the count at the head of
    the blob, whatever its size was, gives every slot an entity of the
    universe of the scene, and registers every slot, free ones included, as
    the animable component of its entity under its own index in the array,
    in the order of the array. *)
Theorem deserialize_registers b sc0 sc' rest :
  deserialize b sc0 = Ok (sc', rest) ->
  (exists count rest0,
      read_int32 b = Ok (count, rest0) /\ 0 <= count
      /\ length (m_animables sc') = Z.to_nat count)
  /\ Forall (fun a' => Entity.universe (m_entity a') = Some m_universe) (m_animables sc')
  /\ trace sc'
     = trace sc0
       ++ imap (fun i a' => AddComponent (Component.mk (m_entity a') ANIMABLE_HASH
                                            (Some this) (Z.of_nat i)))
            (m_animables sc').
Proof.
  unfold deserialize. intros H.
  destruct (read_int32 b) as [[count b0]|e]; [|discriminate]. cbn in H.
  destruct (Z.ltb_spec count 0); [discriminate|].
  destruct (deserialize_loop 0 _ b0) as [[[tbl evs] b1]|e] eqn:Hl; [|discriminate].
  cbn in H. injection H as <- <-. cbn [m_animables trace].
  apply deserialize_loop_inv in Hl as (-> & Hall).
  split; [|split; [|reflexivity]].
  - exists count, b0. split; [reflexivity|]. split; [assumption|].
    apply Forall2_length in Hall. rewrite <- Hall. apply length_resize.
  - apply Forall_lookup. intros i a' Hi.
    destruct (Forall2_lookup_r _ _ _ _ _ Hall Hi) as (old & _ & Hu & _). exact Hu.
Qed.

(** X20.  A load that succeeds binds every slot to the renderable the render
    scene has for its entity at that moment; when the render scene has none,
    the slot keeps the binding that the slot of the same index had before
    the load, or that of a fresh element if the array was shorter. *)
Theorem deserialize_bindings b sc0 sc' rest i a' :
  deserialize b sc0 = Ok (sc', rest) ->
  m_animables sc' !! i = Some a' ->
  m_renderable a'
  = (if Component.isValid (getRenderable (m_entity a'))
     then getRenderable (m_entity a')
     else m_renderable (default blank (m_animables sc0 !! i))).
Proof.
  unfold deserialize. intros H Hi.
  destruct (read_int32 b) as [[count b0]|e]; [|discriminate]. cbn in H.
  destruct (Z.ltb_spec count 0); [discriminate|].
  destruct (deserialize_loop 0 _ b0) as [[[tbl evs] b1]|e] eqn:Hl; [|discriminate].
  cbn in H. injection H as <- <-. cbn [m_animables] in Hi.
  apply deserialize_loop_inv in Hl as (_ & Hall).
  destruct (Forall2_lookup_r _ _ _ _ _ Hall Hi) as (old & Hold & _ & Hr).
  rewrite Hr. destruct (Component.isValid _); [reflexivity|].
  f_equal.
  assert (Hn : (i < Z.to_nat count)%nat).
  { apply lookup_lt_Some in Hold. rewrite length_resize in Hold. exact Hold. }
  destruct (decide (i < length (m_animables sc0))%nat) as [Hlt|Hge].
  - rewrite lookup_resize in Hold by assumption. rewrite Hold. reflexivity.
  - rewrite lookup_resize_new in Hold by lia. injection Hold as <-.
    rewrite lookup_ge_None_2 by lia. reflexivity.
Qed.

Lemma deserialize_serialize_settled i old a rest :
  storable a -> settled a ->
  exists ev, deserialize_animable i old (serialize_animable a ++ rest) = Ok (a, ev, rest).
Proof.
  intros (Hidx & Hbits & Hfloat & Hstr & Hmax & Hint & _) (Hu & Hr & Hv & He & Hload).
  unfold deserialize_animable, serialize_animable.
  rewrite <- !app_assoc.
  rewrite read_write_bool. cbn [mbind result_bind bind].
  rewrite read_write_int32 by exact Hidx. cbn [mbind result_bind bind].
  rewrite read_write_float by assumption. cbn [mbind result_bind bind].
  rewrite read_write_bool. cbn [mbind result_bind bind].
  rewrite readString_writeString by assumption. cbn [mbind result_bind bind].
  eexists. do 3 f_equal.
  assert (Hent : Entity.mk (Entity.index (Component.entity (m_renderable a)))
                   (Some m_universe) = m_entity a).
  { rewrite He. destruct (m_entity a) as [idx u]. cbn in Hu. subst u. reflexivity. }
  rewrite Hent, Hr, Hv.
  assert (Hanim : match preview_path a with
                  | EmptyString => None
                  | String _ _ => loadAnimation (preview_path a)
                  end = m_animation a).
  { unfold preview_path. destruct (m_animation a) as [anim|]; [|reflexivity].
    destruct (Hload anim eq_refl) as [Hne Hl]. rewrite Hl.
    destruct (Animation.getPath anim); [contradiction | reflexivity]. }
  rewrite Hanim. destruct a; reflexivity.
Qed.

(** X23.  When every slot of the array is one the blob can hold, bound to the
    valid renderable the render scene has for its entity, and holds no clip
    or a clip the loader gives back for its path, saving the array and
    loading it again, over any previous array, restores it exactly, slot by
    slot and field by field, and consumes exactly what was written. *)
Theorem deserialize_serialize_identity sc sc0 rest :
  Z.of_nat (length (m_animables sc)) < 2 ^ 31 ->
  Forall storable (m_animables sc) ->
  Forall settled (m_animables sc) ->
  exists sc',
    deserialize (serialize sc ++ rest) sc0 = Ok (sc', rest)
    /\ m_animables sc' = m_animables sc.
Proof.
  intros Hcount Hst Hse. unfold deserialize, serialize.
  rewrite <- app_assoc, read_write_int32 by lia. cbn [mbind result_bind bind].
  destruct (Z.ltb_spec (Z.of_nat (length (m_animables sc))) 0); [lia|].
  rewrite Nat2Z.id.
  assert (Hloop : forall tbl i slots,
             length slots = length tbl -> Forall storable tbl -> Forall settled tbl ->
             exists evs,
               deserialize_loop i slots (flat_map serialize_animable tbl ++ rest)
               = Ok (tbl, evs, rest)).
  { clear. induction tbl as [|a tbl IH]; intros i slots Hlen Hst Hse.
    - destruct slots; [|discriminate]. exists []. reflexivity.
    - destruct slots as [|old slots]; [discriminate|].
      apply Forall_cons in Hst as [Ha Hst]. apply Forall_cons in Hse as [Hb Hse].
      cbn [flat_map deserialize_loop]. rewrite <- app_assoc.
      destruct (deserialize_serialize_settled i old a
                  (flat_map serialize_animable tbl ++ rest) Ha Hb) as (ev & ->).
      cbn [mbind result_bind bind].
      destruct (IH (S i) slots ltac:(cbn in Hlen; lia) Hst Hse) as (evs & ->).
      cbn [mbind result_bind bind]. eexists. reflexivity. }
  destruct (Hloop (m_animables sc) 0%nat
              (resize (length (m_animables sc)) blank (m_animables sc0))
              ltac:(apply length_resize) Hst Hse) as (evs & ->).
  cbn [mbind result_bind bind]. eexists. split; reflexivity.
Qed.

End Loading.

(** ** The further properties on concrete scenes *)

Section FurtherRuns.
Import Sample Scenes.

Lemma getAnimable_createAnimable_witness :
  getAnimable (env := bare) (createAnimable (env := bare) (entity 3) pair).2 (entity 3)
  = handle 3 2.
Proof.
  apply (getAnimable_createAnimable (env := bare) (entity 3) pair).
  - vm_compute. discriminate.
  - intros j b Hj Hb. destruct j as [|[|j]]; vm_compute in Hb.
    + injection Hb as <-. discriminate.
    + injection Hb as <-. discriminate.
    + discriminate.
Defined.

Lemma createAnimable_shape_witness :
  length (m_animables (createAnimable (env := bare) (entity 3) pair).2) = 3%nat
  /\ trace (createAnimable (env := bare) (entity 3) pair).2
     = trace pair ++ [AddComponent (handle 3 2); ComponentCreated (handle 3 2)].
Proof.
  destruct (createAnimable_shape (env := bare) (entity 3) pair) as (H1 & _ & _ & H4).
  - vm_compute. discriminate.
  - split; [exact H1 | exact H4].
Defined.

Lemma destroyComponent_marks_free_witness :
  exists sc' a',
    destroyComponent (handle 1 0) pair = Ok sc'
    /\ at_index (m_animables sc') 0 = Ok a'
    /\ m_is_free a' = true
    /\ m_entity a' = entity 1
    /\ length (m_animables sc') = 2%nat.
Proof.
  destruct (destroyComponent_marks_free (handle 1 0) pair _ eq_refl)
    as (sc' & a' & H1 & H2 & H3 & H4 & _ & _ & _ & _ & H9 & _).
  exists sc', a'. repeat split; assumption.
Defined.

Lemma createAnimable_after_destroy_witness :
  exists sc1,
    destroyComponent (handle 2 1) pair = Ok sc1
    /\ allocated_index (m_animables sc1) = 1%nat
    /\ length (m_animables (createAnimable (env := bare) (entity 3) sc1).2) = 2%nat.
Proof.
  destruct (destroyComponent (handle 2 1) pair) as [sc1|e] eqn:Hd;
    [|vm_compute in Hd; discriminate].
  exists sc1. split; [reflexivity|].
  destruct (createAnimable_after_destroy (env := bare) (handle 2 1) (entity 3) pair sc1)
    as (H1 & H2 & _); [| exact Hd | | split; [exact H1 | exact H2]].
  - vm_compute. discriminate.
  - intros j b Hj Hb. destruct j as [|j]; [|vm_compute in Hj; lia].
    vm_compute in Hb. injection Hb as <-. reflexivity.
Defined.

Lemma run_length_bounded_witness :
  exists sc',
    run (env := bare)
      [Create (entity 1); Create (entity 2); Destroy (handle 1 0); Create (entity 3)]
      empty = Ok sc'
    /\ (length (m_animables sc') <= 2)%nat.
Proof.
  eexists. split; [reflexivity|].
  apply (run_length_bounded (env := bare) 2
           [Create (entity 1); Create (entity 2); Destroy (handle 1 0); Create (entity 3)]
           empty).
  - vm_compute. discriminate.
  - cbn. lia.
  - vm_compute. repeat split; lia.
  - reflexivity.
Defined.

Lemma updates_idle_unchanged_witness :
  exists sc',
    updates 4 [one; one] stage = Ok sc'
    /\ m_animables sc' !! 1%nat = Some (scrubbed 2)
    /\ m_animables sc' !! 2%nat = Some (destroyed 3 (Some (clip "walk.ani")))
    /\ m_animables sc' !! 3%nat = Some (live 4 (renderable 4 4) one (Some loading)).
Proof.
  eexists. split; [reflexivity|]. split; [|split].
  - eapply (updates_idle_unchanged 4 [one; one] stage);
      [reflexivity | left; reflexivity | reflexivity].
  - eapply (updates_idle_unchanged 4 [one; one] stage);
      [reflexivity | right; left; reflexivity | reflexivity].
  - eapply (updates_idle_unchanged 4 [one; one] stage);
      [reflexivity | right; right; reflexivity | reflexivity].
Defined.

Lemma setManual_freezes_time_witness :
  exists sc1 sc2 a2,
    setManual (handle 1 0) true stage = Ok sc1
    /\ updates 4 [one; one] sc1 = Ok sc2
    /\ at_index (m_animables sc2) 0 = Ok a2
    /\ m_time a2 = one
    /\ isManual (handle 1 0) sc2 = Ok true.
Proof.
  destruct (setManual (handle 1 0) true stage) as [sc1|e] eqn:H1;
    [|vm_compute in H1; discriminate].
  destruct (updates 4 [one; one] sc1) as [sc2|e] eqn:H2.
  2: { vm_compute in H1. injection H1 as <-. vm_compute in H2. discriminate. }
  destruct (setManual_freezes_time (handle 1 0) 4 [one; one] stage sc1 sc2 H1 H2)
    as (a & a2 & Ha & Ha2 & Ht & Hm).
  exists sc1, sc2, a2. split; [reflexivity|]. split; [exact H2|].
  split; [exact Ha2|]. split; [|exact Hm].
  rewrite Ht. vm_compute in Ha. injection Ha as <-. reflexivity.
Defined.

Lemma update_keeps_slots_witness :
  exists sc',
    update 4 one stage = Ok sc'
    /\ length (m_animables sc') = 4%nat.
Proof.
  destruct (update 4 one stage) as [sc'|e] eqn:H; [|vm_compute in H; discriminate].
  exists sc'. split; [reflexivity|].
  apply (update_keeps_slots 4 one stage sc' H).
Defined.

Lemma update_poses_witness :
  exists sc',
    update 4 one stage = Ok sc'
    /\ trace sc'
       = [GetPose (clip "walk.ani") one (renderable 1 1);
          GetPose (clip "walk.ani") one_point_two (renderable 2 2)].
Proof.
  destruct (update 4 one stage) as [sc'|e] eqn:H; [|vm_compute in H; discriminate].
  exists sc'. split; [reflexivity|].
  apply (update_poses 4 one stage sc' H).
Defined.

Lemma update_time_not_greater_witness :
  exists sc' a',
    update 4 one_point_two stage = Ok sc'
    /\ m_animables sc' !! 0%nat = Some a'
    /\ Binary32.gt (m_time a') two = false.
Proof.
  destruct (update 4 one_point_two stage) as [sc'|e] eqn:H;
    [|vm_compute in H; discriminate].
  destruct (update_time_not_greater 4 one_point_two stage sc' 0%nat _ (clip "walk.ani")
              H eq_refl) as (a' & H1 & H2).
  - repeat split.
  - exists sc', a'. split; [reflexivity|]. split; [exact H1 | exact H2].
Defined.

Lemma update_never_returns_witness :
  advancing (live 1 (renderable 1 1) (S754_zero false) (Some pause)) pause
  /\ update 1000 one still <> Ok still.
Proof.
  assert (Hadv : advancing (live 1 (renderable 1 1) (S754_zero false) (Some pause)) pause)
    by (repeat split).
  split; [exact Hadv|].
  apply (update_never_returns one still 0%nat _ pause eq_refl Hadv); reflexivity.
Defined.

Lemma setFrame_needs_clip_witness :
  setFrame thirty (handle 1 0) 15 pair = Err NullPointer
  /\ setAnimationFrame (handle 1 0) 15 pair = Ok pair.
Proof.
  destruct (setFrame_needs_clip thirty (handle 1 0) 15 pair _ eq_refl)
    as (H1 & sc' & H2 & _ & _ & H3).
  split; [apply H1; reflexivity|].
  rewrite H2, H3; reflexivity.
Defined.

Lemma getPreview_setPreview_witness :
  exists sc',
    setPreview (env := bare) (handle 1 0) "walk.ani" pair = Ok sc'
    /\ getPreview (handle 1 0) sc' = Ok "walk.ani"%string
    /\ getFrameCount (handle 1 0) sc' = Ok 60
    /\ isManual (handle 1 0) sc' = Ok false.
Proof.
  destruct (getPreview_setPreview (env := bare) (handle 1 0) "walk.ani" pair _ eq_refl)
    as (sc' & H1 & H2 & H3 & H4).
  exists sc'. repeat split; assumption.
Defined.

Lemma deserialize_registers_witness :
  exists sc',
    deserialize (env := rendered) (serialize playing) empty = Ok (sc', [])
    /\ length (m_animables sc') = 2%nat
    /\ trace sc' = [AddComponent (handle 1 0); AddComponent (handle (-1) 1)].
Proof.
  destruct (deserialize (env := rendered) (serialize playing) empty)
    as [[sc' rest]|e] eqn:H; [|vm_compute in H; discriminate].
  assert (rest = []) as -> by (vm_compute in H; congruence).
  destruct (deserialize_registers (env := rendered) (serialize playing) empty sc' [] H)
    as ((count & rest0 & Hc & _ & Hlen) & _ & Ht).
  vm_compute in Hc. injection Hc as <- _.
  exists sc'. split; [reflexivity|]. split; [exact Hlen|].
  rewrite Ht. vm_compute in H. injection H as <-. reflexivity.
Defined.

Lemma deserialize_bindings_witness :
  exists sc' a',
    deserialize (env := bare) (serialize playing) stage = Ok (sc', [])
    /\ m_animables sc' !! 1%nat = Some a'
    /\ m_renderable a' = renderable 2 2.
Proof.
  destruct (deserialize (env := bare) (serialize playing) stage)
    as [[sc' rest]|e] eqn:H; [|vm_compute in H; discriminate].
  assert (rest = []) as -> by (vm_compute in H; congruence).
  destruct (m_animables sc' !! 1%nat) as [a'|] eqn:Hi.
  2: { vm_compute in H. injection H as <-. discriminate. }
  exists sc', a'. split; [reflexivity|]. split; [exact Hi|].
  rewrite (deserialize_bindings (env := bare) (serialize playing) stage sc' [] 1%nat a'
             H Hi).
  vm_compute in H. injection H as <-. vm_compute in Hi. injection Hi as <-.
  reflexivity.
Defined.


Lemma update_no_wrap_witness :
  exists sc' a',
    update 1 minus_one walking = Ok sc'
    /\ m_animables sc' !! 0%nat = Some a'
    /\ m_time a' = minus_one.
Proof.
  destruct (update 1 minus_one walking) as [sc'|e] eqn:H;
    [|vm_compute in H; discriminate].
  destruct (update_no_wrap 1 minus_one walking sc' 0%nat _ (clip "walk.ani") H eq_refl)
    as (a' & H1 & H2).
  - repeat split.
  - reflexivity.
  - exists sc', a'. split; [reflexivity|]. split; [exact H1|].
    rewrite H2. reflexivity.
Defined.

Lemma deserialize_serialize_identity_witness :
  exists sc',
    deserialize (env := rendered) (serialize walking ++ [x2a]) stage = Ok (sc', [x2a])
    /\ m_animables sc' = m_animables walking.
Proof.
  apply (deserialize_serialize_identity (env := rendered) walking stage [x2a]).
  - reflexivity.
  - constructor; [|constructor].
    unfold storable. repeat split; try (vm_compute; congruence).
    intros _. exists (clip "walk.ani"). split; reflexivity.
  - constructor; [|constructor].
    unfold settled. do 4 (split; [reflexivity|]).
    intros anim [= <-]. split; [discriminate | reflexivity].
Defined.

End FurtherRuns.
